(** * call_depth.py: call-depth ranking of a C function

    A shallow embedding of [src/call_depth.py] and the properties its
    specification states about it.

    Conventions of the embedding:
    - a Python [str] is the list of its Unicode code points ([PyStr.str]);
      the whitespace and line-boundary tables are CPython's;
    - a Python [int] is a [Z]; [len] is [Z.of_nat (length _)];
    - [None]-or-value results are [option];
    - a raised exception or [sys.exit] ends the run with an [outcome];
    - the shell ([subprocess.run(...).stdout]) is a Section variable
      [run : cmd -> cwd -> stdout], so every statement holds for all tool
      outputs;
    - [print] calls are recorded in order as values of type [line]. *)

From Stdlib Require Import Strings.String Strings.Ascii.
From Stdlib Require Import List ZArith NArith QArith Lia Bool.
From Stdlib Require Import Sorting.Sorted Sorting.Permutation.
From Equations Require Import Equations.
Import ListNotations.

Local Open Scope Z_scope.

(* ------------------------------------------------------------------ *)
(** ** Python strings *)

Module PyStr.

(** A code point. *)
Definition char := N.
Definition str := list char.

(** Literals of the source that are plain ASCII. *)
Fixpoint lit (s : string) : str :=
  match s with
  | EmptyString => []
  | String a s' => N_of_ascii a :: lit s'
  end.

Definition SP : char := 32%N.
Definition LF : char := 10%N.
Definition CR : char := 13%N.
Definition SQUOTE : char := 39%N.
Definition DQUOTE : char := 34%N.

Definition in_range (lo hi c : N) : bool := ((lo <=? c) && (c <=? hi))%N.

(** [str.isspace] on one character (CPython's [_PyUnicode_IsWhitespace]). *)
Definition isspace (c : char) : bool :=
  in_range 9 13 c || in_range 28 32 c || (c =? 133)%N || (c =? 160)%N
  || (c =? 5760)%N || in_range 8192 8202 c || (c =? 8232)%N
  || (c =? 8233)%N || (c =? 8239)%N || (c =? 8287)%N || (c =? 12288)%N.

(** The line boundaries of [str.splitlines] (CPython's
    [_PyUnicode_IsLinebreak]). *)
Definition islinebreak (c : char) : bool :=
  in_range 10 13 c || in_range 28 30 c || (c =? 133)%N
  || (c =? 8232)%N || (c =? 8233)%N.

Fixpoint dropwhile (p : char -> bool) (s : str) : str :=
  match s with
  | [] => []
  | c :: s' => if p c then dropwhile p s' else s
  end.

(** [s.lstrip()], [s.rstrip()], [s.strip()]. *)
Definition lstrip (s : str) : str := dropwhile isspace s.
Definition rstrip (s : str) : str := rev (dropwhile isspace (rev s)).
Definition strip (s : str) : str := rstrip (lstrip s).

(** [s.lstrip(' ')]: only the given character is removed. *)
Definition lstrip_char (c : char) (s : str) : str :=
  dropwhile (N.eqb c) s.

(** [len(s)]. *)
Definition len {A} (l : list A) : Z := Z.of_nat (length l).

(** [s.splitlines()]: [cur] holds, reversed, the characters of the line
    being read. A line boundary closes the current line, a CR LF pair
    counts as one boundary, and characters after the last boundary form
    a last line only when there are any. *)
Fixpoint splitlines_from (cur : str) (s : str) : list str :=
  match s with
  | [] => match cur with [] => [] | _ => [rev cur] end
  | c :: rest =>
      if islinebreak c then
        rev cur ::
          match rest with
          | c2 :: rest' =>
              if ((c =? CR) && (c2 =? LF))%N
              then splitlines_from [] rest'
              else splitlines_from [] rest
          | [] => splitlines_from [] rest
          end
      else splitlines_from (c :: cur) rest
  end.

Definition splitlines (s : str) : list str := splitlines_from [] s.

(** [s.split()]: the maximal runs of non-whitespace characters. *)
Fixpoint split_from (cur : str) (s : str) : list str :=
  match s with
  | [] => match cur with [] => [] | _ => [rev cur] end
  | c :: rest =>
      if isspace c then
        match cur with
        | [] => split_from [] rest
        | _ => rev cur :: split_from [] rest
        end
      else split_from (c :: cur) rest
  end.

Definition split (s : str) : list str := split_from [] s.

(** [sep.join(parts)]. *)
Fixpoint join (sep : str) (parts : list str) : str :=
  match parts with
  | [] => []
  | [p] => p
  | p :: ps => p ++ sep ++ join sep ps
  end.

(** [s.replace(old, new)] for a one-character [old]. *)
Definition replace_char (old : char) (new : str) (s : str) : str :=
  flat_map (fun c => if (c =? old)%N then new else [c]) s.

(** [a < b] on strings: lexicographic on code points. *)
Fixpoint ltb (a b : str) : bool :=
  match a, b with
  | [], [] => false
  | [], _ :: _ => true
  | _ :: _, [] => false
  | x :: a', y :: b' =>
      if (x <? y)%N then true
      else if (y <? x)%N then false
      else ltb a' b'
  end.

Definition eqb (a b : str) : bool :=
  if list_eq_dec N.eq_dec a b then true else false.

End PyStr.

Import PyStr.

(* ------------------------------------------------------------------ *)
(** ** Python lists, sorting, dictionaries *)

Module Py.

(** [l[i]]: a negative index counts from the end; [None] stands for
    [IndexError]. *)
Definition getitem {A} (l : list A) (i : Z) : option A :=
  let n := len l in
  let j := if i <? 0 then i + n else i in
  if (j <? 0) || (n <=? j) then None else nth_error l (Z.to_nat j).

(** [enumerate(l, start)]. *)
Fixpoint enumerate {A} (l : list A) (start : Z) : list (Z * A) :=
  match l with
  | [] => []
  | x :: l' => (start, x) :: enumerate l' (start + 1)
  end.

(** [sorted(l)] and [l.sort()]. Python's sort is stable and compares with
    [<] only. It is modelled by the stable insertion sort below; lemma
    [sorted_unique] shows that for a total order without ties every
    sorting algorithm returns this same list. *)
Section Sort.
Context {A : Type} (lt : A -> A -> bool).

Fixpoint insert (x : A) (l : list A) : list A :=
  match l with
  | [] => [x]
  | y :: l' => if lt y x then y :: insert x l' else x :: l
  end.

Fixpoint sorted (l : list A) : list A :=
  match l with
  | [] => []
  | x :: l' => insert x (sorted l')
  end.
End Sort.

(** [set(l)] followed by an iteration: the distinct elements of [l]. The
    iteration order of a Python set is unspecified; the program only
    iterates it inside [sorted], whose result does not depend on it
    ([sorted_order_irrelevant]). *)
Definition set_of (l : list str) : list str :=
  nodup (list_eq_dec N.eq_dec) l.

(** A [dict] with [str] keys, in insertion order. *)
Definition dict (V : Type) := list (str * V).

(** [m.get(k, None)]. *)
Fixpoint dict_get {V} (m : dict V) (k : str) : option V :=
  match m with
  | [] => None
  | (k', v) :: m' => if eqb k' k then Some v else dict_get m' k
  end.

(** [m[k] = v]: an existing key keeps its position. *)
Fixpoint dict_set {V} (m : dict V) (k : str) (v : V) : dict V :=
  match m with
  | [] => [(k, v)]
  | (k', v') :: m' =>
      if eqb k' k then (k', v) :: m' else (k', v') :: dict_set m' k v
  end.

(** [m.items()]. *)
Definition items {V} (m : dict V) : list (str * V) := m.

Definition keys {V} (m : dict V) : list str := map fst m.

(** The loop of [bisect.bisect_right(a, x)] (Lib/bisect.py):
    [while lo < hi: mid = (lo + hi) // 2;
       if x < a[mid]: hi = mid  else: lo = mid + 1]. *)
Equations? bisect_right_loop (a : list Z) (x : Z) (lo hi : Z) : option Z
  by wf (Z.to_nat (hi - lo)) lt :=
  bisect_right_loop a x lo hi with Z_lt_dec lo hi := {
    | right _ => Some lo
    | left Hlt with getitem a ((lo + hi) / 2) := {
        | None => None
        | Some am with Z_lt_dec x am := {
            | left _ => bisect_right_loop a x lo ((lo + hi) / 2)
            | right _ => bisect_right_loop a x ((lo + hi) / 2 + 1) hi } } }.
Proof.
  - assert ((lo + hi) / 2 < hi) by (apply Z.div_lt_upper_bound; lia).
    assert (lo <= (lo + hi) / 2) by (apply Z.div_le_lower_bound; lia).
    lia.
  - assert ((lo + hi) / 2 < hi) by (apply Z.div_lt_upper_bound; lia).
    assert (lo <= (lo + hi) / 2) by (apply Z.div_le_lower_bound; lia).
    lia.
Qed.

Definition bisect_right (a : list Z) (x : Z) : option Z :=
  bisect_right_loop a x 0 (len a).

(** [shlex.quote] (Lib/shlex.py): a string of safe characters is left
    as it is, any other is wrapped in single quotes. *)
Definition is_safe_char (c : char) : bool :=
  in_range 48 57 c || in_range 65 90 c || in_range 97 122 c
  || existsb (N.eqb c) (lit "_@%+=:,./-").

Definition quote (s : str) : str :=
  match s with
  | [] => lit "''"
  | _ =>
      if forallb is_safe_char s then s
      else [SQUOTE]
             ++ replace_char SQUOTE
                  [SQUOTE; DQUOTE; SQUOTE; DQUOTE; SQUOTE] s
             ++ [SQUOTE]
  end.

End Py.

Import Py.

(* ------------------------------------------------------------------ *)
(** ** The program *)

(** How a run ends: [main] returns (exit status 0), [sys.exit(code)], or an
    uncaught exception (exit status 1). *)
Inductive exn := IndexError | ZeroDivisionError.

Inductive outcome :=
| Returned
| SysExit (code : Z)
| Raised (e : exn).

Definition exit_code (o : outcome) : Z :=
  match o with
  | Returned => 0
  | SysExit code => code
  | Raised _ => 1
  end.

(** The interpretation [main] prints (lines 116-121). *)
Inductive classification := Deep | Shallow | MidRange.

(** One [print] call of [main]. The fixed message texts are constructors;
    the values interpolated into a message are its arguments. *)
Inductive line :=
| Usage                                  (* print(USAGE) *)
| NoFunctionsFound                       (* line 72 *)
| NoDepthsMeasured                       (* line 84 *)
| TargetNotMeasured (target : str)       (* line 91 *)
| FallbackTopHeader                      (* line 94 *)
| TopEntry (d : Z) (name : str)          (* lines 96 and 127 *)
| ReportHeader                           (* line 105 *)
| ReportTarget (target : str)            (* line 106 *)
| ReportDepth (td : Z)                   (* line 107 *)
| ReportPosition (top pct : Q)           (* line 108: 100-pct and pct *)
| ReportCount (n : Z)                    (* line 109 *)
| Blank                                  (* line 110 *)
| ReportQuartiles (q1 q2 q3 : Z)         (* line 115 *)
| ReportClass (c : classification)       (* lines 117, 119, 121 *)
| TopHeader.                             (* line 124 *)

(** *** Parsing the call-graph tool's output (lines 48-60) *)

(** [len(line) - len(line.lstrip(' '))]. *)
Definition leading (l : str) : Z := len l - len (lstrip_char SP l).

(** [leading // 2]. *)
Definition depth_of_line (l : str) : Z := leading l / 2.

(** One iteration of the loop over [enumerate(text.splitlines(), 1)]. *)
Definition depth_step (maxdepth : Z) (il : Z * str) : Z :=
  let (i, l) := il in
  if i =? 1 then maxdepth
  else
    let depth := depth_of_line l in
    if depth >? maxdepth then depth else maxdepth.

(** The body of [max_call_depth_for] after the tool has run. *)
Definition depth_of_output (text : str) : option Z :=
  match strip text with
  | [] => None
  | _ => Some (fold_left depth_step (enumerate (splitlines text) 1) 0)
  end.

(** *** Parsing the symbol extractor's output (lines 34-41) *)

(** One iteration of the loop over [out.splitlines()]. *)
Definition funcs_step (funcs : list str) (l : str) : list str :=
  match split l with
  | [] => funcs
  | name :: _ => funcs ++ [name]
  end.

Definition funcs_of_output (out : str) : list str :=
  sorted ltb (set_of (fold_left funcs_step (splitlines out) [])).

(** *** The statistics of [main] (lines 100-121) *)

(** [100.0 * rank / len(depths)]. The binary64 value is modelled by the
    exact rational; [None] stands for [ZeroDivisionError]. *)
Definition percentile (rank n : Z) : option Q :=
  if n =? 0 then None else Some (100 * inject_Z rank / inject_Z n)%Q.

(** [int(0.25*n)], [int(0.50*n)], [int(0.75*n)] as [int_quarters k n] for
    [k] = 1, 2, 3. The binary64 product is exact for every length below
    2^51, and [int] truncates toward zero. *)
Definition int_quarters (k n : Z) : Z := Z.quot (k * n) 4.

Definition quartiles (depths : list Z) : option (Z * Z * Z) :=
  match getitem depths (int_quarters 1 (len depths)) with
  | None => None
  | Some q1 =>
      match getitem depths (int_quarters 2 (len depths)) with
      | None => None
      | Some q2 =>
          match getitem depths (int_quarters 3 (len depths)) with
          | None => None
          | Some q3 => Some (q1, q2, q3)
          end
      end
  end.

(** [if td >= q3: ... elif td <= q1: ... else: ...]. *)
Definition classify (td q1 q3 : Z) : classification :=
  if td >=? q3 then Deep
  else if td <=? q1 then Shallow
  else MidRange.

(** The key of the top-20 sort, [lambda x: (-x[1], x[0])], and [<] on such
    tuples: the first components decide unless they are equal. *)
Definition top_key (x : str * Z) : Z * str := (- snd x, fst x).

Definition key_ltb (a b : Z * str) : bool :=
  if fst a =? fst b then ltb (snd a) (snd b) else fst a <? fst b.

(** The comparison a sort with this key performs on two items. *)
Definition top_ltb (a b : str * Z) : bool :=
  key_ltb (top_key a) (top_key b).

(** [sorted(depth_map.items(), key=lambda x: (-x[1], x[0]))[:20]]. *)
Definition top20 (depth_map : dict Z) : list (str * Z) :=
  firstn 20 (sorted top_ltb (items depth_map)).

(** [for name, d in top: print(f"{d:>3}  {name}")]. *)
Definition print_top (top : list (str * Z)) : list line :=
  map (fun nd => TopEntry (snd nd) (fst nd)) top.

(** One iteration of the measuring loop (lines 78-81), given the measured
    depth [d] of [f]. *)
Definition measure_step (d : option Z) (f : str)
    (st : list Z * dict Z) : list Z * dict Z :=
  match d with
  | None => st
  | Some d => (fst st ++ [d], dict_set (snd st) f d)
  end.

(** Lines 83-127, after the measuring loop. *)
Definition report (target : str) (depths : list Z) (depth_map : dict Z)
  : list line * outcome :=
  match depths with
  | [] => ([NoDepthsMeasured], SysExit 3)
  | _ =>
      let depths := sorted Z.ltb depths in
      match dict_get depth_map target with
      | None =>
          ([TargetNotMeasured target; FallbackTopHeader]
             ++ print_top (top20 depth_map),
           SysExit 4)
      | Some td =>
          match bisect_right depths td with
          | None => ([], Raised IndexError)
          | Some rank =>
              match percentile rank (len depths) with
              | None => ([], Raised ZeroDivisionError)
              | Some pct =>
                  let summary :=
                    [ReportHeader; ReportTarget target; ReportDepth td;
                     ReportPosition (100 - pct)%Q pct;
                     ReportCount (len depths); Blank] in
                  match quartiles depths with
                  | None => (summary, Raised IndexError)
                  | Some (q1, q2, q3) =>
                      (summary
                         ++ [ReportQuartiles q1 q2 q3;
                             ReportClass (classify td q1 q3); TopHeader]
                         ++ print_top (top20 depth_map),
                       Returned)
                  end
              end
          end
      end
  end.

Section Shell.

(** [run(cmd, cwd).stdout]: the text a shell command prints, as the
    program sees it. *)
Variable run : str -> option str -> str.

(** Line 22. *)
Definition git_ls_cmd (src_root file_glob : str) : str :=
  lit "git -C " ++ quote src_root
  ++ lit " ls-files | grep -E '" ++ file_glob ++ lit "' || true".

(** Line 26. *)
Definition find_cmd (src_root : str) : str :=
  lit "find " ++ quote src_root
  ++ lit " -type f -name '*.c' -o -name '*.h'".

(** Lines 22-27: the files to scan, from the version-control listing or,
    when that is empty, from the filesystem search. *)
Definition list_files (src_root file_glob : str) : list str :=
  let files := splitlines (strip (run (git_ls_cmd src_root file_glob) None)) in
  match files with
  | [] => splitlines (strip (run (find_cmd src_root) None))
  | _ => files
  end.

(** Lines 31-32. *)
Definition ctags_cmd (files : list str) : str :=
  let file_list := join (lit " ") (map quote files) in
  lit "ctags -x --c-kinds=f " ++ file_list.

(** Lines 19-41. *)
Definition list_functions (src_root file_glob : str) : list str :=
  match list_files src_root file_glob with
  | [] => []
  | files => funcs_of_output (run (ctags_cmd files) None)
  end.

(** Lines 43-60. *)
Definition cflow_cmd (func src_root : str) : str :=
  lit "cflow --omit-arguments --main=" ++ quote func
  ++ lit " $(git -C " ++ quote src_root
  ++ lit " ls-files '*.c' '*.h' 2>/dev/null || true)".

Definition max_call_depth_for (func src_root : str) : option Z :=
  depth_of_output (run (cflow_cmd func src_root) (Some src_root)).

(** The measuring loop of [main] (lines 75-81): the pair of [depths] and
    [depth_map] after the functions [funcs]. *)
Definition measure_all (src_root : str) (funcs : list str)
  : list Z * dict Z :=
  fold_left
    (fun st f => measure_step (max_call_depth_for f src_root) f st)
    funcs ([], []).

(** Lines 67-68: the optional arguments, [rest] being [sys.argv[2:]]. *)
Definition src_root_arg (rest : list str) : str :=
  match rest with r :: _ => r | [] => lit "." end.

Definition file_glob_arg (rest : list str) : str :=
  match rest with _ :: g :: _ => g | _ => lit "\.c$|\.h$" end.

(** Lines 62-127; [argv] is [sys.argv]. *)
Definition main (argv : list str) : list line * outcome :=
  match argv with
  | _ :: target :: rest =>
      let src_root := src_root_arg rest in
      let file_glob := file_glob_arg rest in
      match list_functions src_root file_glob with
      | [] => ([NoFunctionsFound], SysExit 2)
      | funcs =>
          let st := measure_all src_root funcs in
          report target (fst st) (snd st)
      end
  | _ => ([Usage], SysExit 1)
  end.

End Shell.

(* ------------------------------------------------------------------ *)
(** ** Recorded tool outputs *)

(** Shells that answer from recorded outputs; the examples below run the
    program on them. *)
Module Recorded.

Definition unlines (ls : list str) : str :=
  flat_map (fun l => l ++ [LF]) ls.

Definition starts_with (p s : str) : bool :=
  eqb (firstn (length p) s) p.

(** [listing], [found] and [tags] are what the version-control listing,
    the filesystem search and the symbol extractor print; [trees] gives
    the call tree printed for a function, nothing being printed for the
    others. *)
Definition shell (listing found tags : str) (trees : list (str * str))
  : str -> option str -> str :=
  fun cmd _ =>
    if starts_with (lit "git ") cmd then listing
    else if starts_with (lit "find ") cmd then found
    else if starts_with (lit "ctags ") cmd then tags
    else
      match
        find (fun ft =>
                starts_with (lit "cflow --omit-arguments --main="
                             ++ quote (fst ft) ++ lit " ") cmd) trees
      with
      | Some ft => snd ft
      | None => []
      end.

(** No tool prints anything. *)
Definition silent : str -> option str -> str := fun _ _ => [].

(** Functions [a], [b], [c] of depths 0, 2 and 4, and a function [d]
    whose call tree cannot be built. *)
Definition abc : str -> option str -> str :=
  shell (unlines [lit "a.c"; lit "b.c"]) []
    (unlines [lit "b   function  3 a.c  int b()";
              lit "a   function  1 a.c  int a()";
              lit "c   function  9 b.c  int c()";
              lit "b   function  1 b.c  int b()";
              lit "d   function  5 b.c  int d()"])
    [(lit "a", unlines [lit "a() <int a () at a.c:1>"]);
     (lit "b", unlines [lit "b()"; lit "  x()"; lit "    y()"; lit "  z()"]);
     (lit "c", unlines [lit "c()"; lit "  x()"; lit "    y()";
                        lit "      y()"; lit "        y()"; lit "  z()"])].

(** Three functions, all of depth 1. *)
Definition flat : str -> option str -> str :=
  shell (unlines [lit "a.c"]) []
    (unlines [lit "a function 1 a.c"; lit "b function 2 a.c";
              lit "c function 3 a.c"])
    [(lit "a", unlines [lit "a()"; lit "  x()"]);
     (lit "b", unlines [lit "b()"; lit "  x()"]);
     (lit "c", unlines [lit "c()"; lit "  x()"])].

(** Functions are found, no call tree can be built. *)
Definition treeless : str -> option str -> str :=
  shell (unlines [lit "a.c"]) [] (unlines [lit "a function 1 a.c"]) [].

(** Twenty-two functions [a] ... [v]; the function number [i] has depth
    [i mod 3]. *)
Definition many_names : list str :=
  map (fun i => [N.of_nat (97 + i)]) (seq 0 22).

Definition many : str -> option str -> str :=
  shell (unlines [lit "a.c"]) []
    (unlines (map (fun n => n ++ lit " function 1 a.c") many_names))
    (map (fun i =>
            ([N.of_nat (97 + i)],
             unlines ([N.of_nat (97 + i)]
                      :: map (fun k => repeat SP (2 * k) ++ lit "x()")
                           (seq 1 (i mod 3)))))
       (seq 0 22)).

End Recorded.

(* ------------------------------------------------------------------ *)
(** ** Vocabulary of the specification *)

(** A text that is empty or consists of whitespace only. *)
Definition blank (s : str) : Prop := Forall (fun c => isspace c = true) s.

(** The number of leading space characters of a line. *)
Fixpoint leading_spaces (l : str) : nat :=
  match l with
  | c :: l' => if (c =? SP)%N then S (leading_spaces l') else O
  | [] => O
  end.

(** [a] may stand before [b] in a list sorted with the comparison [lt]:
    [b < a] does not hold. *)
Definition precedes {A} (lt : A -> A -> bool) (a b : A) : Prop :=
  lt b a = false.

(** The largest of a list of depths, 0 for the empty list. *)
Definition max_depth (ds : list Z) : Z := fold_right Z.max 0 ds.

(** The number of elements of [l] that are at most [x]. *)
Definition count_le (x : Z) (l : list Z) : Z :=
  len (filter (fun d => d <=? x) l).

(** The elements of [a] before position [lo] are at most [x], those from
    position [hi] on are above [x]. *)
Definition splits (a : list Z) (x : Z) (lo hi : Z) : Prop :=
  (forall i v, nth_error a i = Some v -> Z.of_nat i < lo -> v <= x) /\
  (forall i v, nth_error a i = Some v -> hi <= Z.of_nat i -> x < v).

(** The depths of the functions of [funcs] that could be measured, in
    order; [measure] gives the depth of a function or [None]. *)
Definition measured (measure : str -> option Z) (funcs : list str)
  : list Z :=
  flat_map (fun f => match measure f with Some d => [d] | None => [] end)
    funcs.

(** [name] is the first whitespace-delimited token of [l]. *)
Definition first_token (l name : str) : Prop :=
  exists ws rest,
    l = ws ++ name ++ rest /\
    blank ws /\
    name <> [] /\
    Forall (fun c => isspace c = false) name /\
    match rest with [] => True | c :: _ => isspace c = true end.

(** Lexicographic order of strings by code point. *)
Inductive lex_lt : str -> str -> Prop :=
| lex_lt_nil c b : lex_lt [] (c :: b)
| lex_lt_head x y a b : (x < y)%N -> lex_lt (x :: a) (y :: b)
| lex_lt_tail x a b : lex_lt a b -> lex_lt (x :: a) (x :: b).

Definition lex_le (a b : str) : Prop := a = b \/ lex_lt a b.

(** The order of the top-20 list: deeper first, equal depths by name. *)
Definition top_order (a b : str * Z) : Prop :=
  snd a > snd b \/ (snd a = snd b /\ lex_le (fst a) (fst b)).

(* ------------------------------------------------------------------ *)
(** ** Facts about the Python layer *)

(** *** Sorting *)

Section SortFacts.

Context {A : Type} (lt : A -> A -> bool).

Lemma insert_perm x l : Permutation (insert lt x l) (x :: l).
Proof.
  induction l as [|y l IH]; simpl; [reflexivity|].
  destruct (lt y x); [|reflexivity].
  rewrite IH. apply perm_swap.
Qed.

Lemma sorted_perm l : Permutation (sorted lt l) l.
Proof.
  induction l as [|x l IH]; simpl; [constructor|].
  rewrite insert_perm. now constructor.
Qed.

Lemma sorted_length l : length (sorted lt l) = length l.
Proof. apply Permutation_length, sorted_perm. Qed.

Lemma sorted_in x l : In x (sorted lt l) <-> In x l.
Proof.
  split; apply Permutation_in;
    [apply sorted_perm | symmetry; apply sorted_perm].
Qed.

Lemma sorted_nil_inv l : sorted lt l = [] -> l = [].
Proof.
  intros H. apply length_zero_iff_nil.
  rewrite <- sorted_length, H. reflexivity.
Qed.

Hypothesis lt_asym : forall a b, lt a b = true -> lt b a = false.
Hypothesis precedes_trans :
  forall a b c, precedes lt a b -> precedes lt b c -> precedes lt a c.

Lemma insert_sorted x l :
  StronglySorted (precedes lt) l ->
  StronglySorted (precedes lt) (insert lt x l).
Proof.
  induction 1 as [|y l Hs IH Hall]; simpl.
  - repeat constructor.
  - destruct (lt y x) eqn:E.
    + constructor; [exact IH|].
      eapply Permutation_Forall; [symmetry; apply insert_perm|].
      constructor; [apply lt_asym, E | exact Hall].
    + constructor; [now constructor|].
      constructor; [exact E|].
      eapply Forall_impl; [|exact Hall].
      intros z Hz. eapply precedes_trans; [exact E | exact Hz].
Qed.

Lemma sorted_sorted l : StronglySorted (precedes lt) (sorted lt l).
Proof.
  induction l; simpl; [constructor | now apply insert_sorted].
Qed.

End SortFacts.

Lemma StronglySorted_impl {A} (R R' : A -> A -> Prop) l :
  (forall a b, R a b -> R' a b) ->
  StronglySorted R l -> StronglySorted R' l.
Proof.
  intros Himp. induction 1 as [|a l _ IH Hall]; constructor; [exact IH|].
  eapply Forall_impl; [|exact Hall]. intros b. apply Himp.
Qed.

(** Two sorted arrangements of the same elements are the same list when
    the order has no ties. *)
Lemma sorted_unique {A} (R : A -> A -> Prop) :
  (forall a b, R a b -> R b a -> a = b) ->
  forall l1 l2, Permutation l1 l2 ->
    StronglySorted R l1 -> StronglySorted R l2 -> l1 = l2.
Proof.
  intros Hanti l1.
  induction l1 as [|a l1 IH]; intros l2 Hp H1 H2.
  - apply Permutation_nil in Hp. now subst.
  - destruct l2 as [|b l2].
    + symmetry in Hp. apply Permutation_nil in Hp. discriminate.
    + inversion H1 as [|? ? Hs1 Ha]; subst.
      inversion H2 as [|? ? Hs2 Hb]; subst.
      assert (a = b) as ->.
      { assert (In a (b :: l2)) as Ia
          by (eapply Permutation_in; [exact Hp | now left]).
        assert (In b (a :: l1)) as Ib
          by (eapply Permutation_in; [symmetry; exact Hp | now left]).
        destruct Ia as [->|Ia]; [reflexivity|].
        destruct Ib as [->|Ib]; [reflexivity|].
        rewrite Forall_forall in Ha, Hb.
        apply Hanti; [apply Ha, Ib | apply Hb, Ia]. }
      f_equal. apply IH; [eapply Permutation_cons_inv; exact Hp | | ]; assumption.
Qed.

(** The list [sorted] returns does not depend on the order in which its
    argument is given, so neither the iteration order of a [set] nor the
    sorting algorithm matters. *)
Lemma sorted_order_irrelevant {A} (lt : A -> A -> bool) :
  (forall a b, lt a b = true -> lt b a = false) ->
  (forall a b c, precedes lt a b -> precedes lt b c -> precedes lt a c) ->
  (forall a b, precedes lt a b -> precedes lt b a -> a = b) ->
  forall l1 l2, Permutation l1 l2 -> sorted lt l1 = sorted lt l2.
Proof.
  intros Has Htr Hanti l1 l2 Hp.
  apply (sorted_unique (precedes lt) Hanti).
  - rewrite (sorted_perm lt l1), Hp. symmetry. apply sorted_perm.
  - now apply sorted_sorted.
  - now apply sorted_sorted.
Qed.

(** The order of [int]. *)
Lemma Zltb_asym a b : (a <? b) = true -> (b <? a) = false.
Proof. intros H. apply Z.ltb_lt in H. apply Z.ltb_ge. lia. Qed.

Lemma Zprecedes_le a b : precedes Z.ltb a b <-> a <= b.
Proof. unfold precedes. rewrite Z.ltb_ge. reflexivity. Qed.

Lemma Zprecedes_trans a b c :
  precedes Z.ltb a b -> precedes Z.ltb b c -> precedes Z.ltb a c.
Proof. rewrite !Zprecedes_le. lia. Qed.

Lemma sorted_Z_sorted l : StronglySorted Z.le (sorted Z.ltb l).
Proof.
  apply (StronglySorted_impl (precedes Z.ltb)).
  - intros a b. apply Zprecedes_le.
  - apply sorted_sorted; [apply Zltb_asym | apply Zprecedes_trans].
Qed.

(** [depths.sort()] returns the one ascending arrangement of [depths]. *)
Lemma sort_depths_unique depths s :
  Permutation s depths -> StronglySorted Z.le s -> s = sorted Z.ltb depths.
Proof.
  intros Hp Hs. apply (sorted_unique Z.le).
  - intros a b. lia.
  - rewrite Hp. symmetry. apply sorted_perm.
  - exact Hs.
  - apply sorted_Z_sorted.
Qed.

(** *** Strings *)

Lemma dropwhile_head p s c r : dropwhile p s = c :: r -> p c = false.
Proof.
  induction s as [|x s IH]; simpl; [discriminate|].
  destruct (p x) eqn:E; [exact IH|].
  intros H. injection H as -> _. exact E.
Qed.

Lemma dropwhile_nil p s :
  dropwhile p s = [] <-> Forall (fun c => p c = true) s.
Proof.
  induction s as [|x s IH]; simpl.
  - split; [constructor | reflexivity].
  - destruct (p x) eqn:E.
    + rewrite IH. split; [now constructor | now inversion 1].
    + split; [discriminate|]. inversion 1. congruence.
Qed.

Lemma dropwhile_all p s :
  Forall (fun c => p c = true) (dropwhile p s) -> dropwhile p s = [].
Proof.
  destruct (dropwhile p s) as [|c r] eqn:E; [reflexivity|].
  apply dropwhile_head in E. inversion 1. congruence.
Qed.

(** [not text.strip()] holds exactly for the blank texts. *)
Lemma strip_nil_iff s : strip s = [] <-> blank s.
Proof.
  unfold strip, rstrip, lstrip, blank. split.
  - intros H.
    apply (f_equal (@rev char)) in H. rewrite rev_involutive in H.
    simpl in H. apply dropwhile_nil in H.
    apply Forall_rev in H. rewrite rev_involutive in H.
    apply dropwhile_all in H. now apply dropwhile_nil.
  - intros H. apply dropwhile_nil in H. rewrite H. reflexivity.
Qed.

Lemma blank_dec s : {blank s} + {~ blank s}.
Proof.
  apply Forall_dec. intros c. destruct (isspace c); [now left | now right].
Qed.

Lemma splitlines_from_cur cur s : cur <> [] -> splitlines_from cur s <> [].
Proof.
  revert cur. induction s as [|c s IH]; intros cur Hc; simpl.
  - destruct cur; [congruence | discriminate].
  - destruct (islinebreak c); [discriminate|]. apply IH. discriminate.
Qed.

(** A text that is not empty has a first line. *)
Lemma splitlines_nonempty s :
  s <> [] -> exists first rest, splitlines s = first :: rest.
Proof.
  intros Hs. destruct (splitlines s) as [|f r] eqn:E; [|eauto].
  exfalso. destruct s as [|c s]; [congruence|].
  unfold splitlines in E. simpl in E.
  destruct (islinebreak c); [discriminate|].
  revert E. apply splitlines_from_cur. discriminate.
Qed.

(** [len(line) - len(line.lstrip(' '))] counts the leading spaces. *)
Lemma leading_count l : leading l = Z.of_nat (leading_spaces l).
Proof.
  unfold leading, lstrip_char, len.
  induction l as [|c l IH]; [reflexivity|].
  cbn [dropwhile leading_spaces].
  rewrite (N.eqb_sym SP c).
  destruct (c =? SP)%N; cbn [length] in *; lia.
Qed.

Lemma depth_of_line_nonneg l : 0 <= depth_of_line l.
Proof.
  unfold depth_of_line. rewrite leading_count.
  apply Z.div_pos; lia.
Qed.

(** The loop over the lines keeps the largest depth seen so far. *)
Lemma depth_step_max acc i l :
  i <> 1 -> depth_step acc (i, l) = Z.max acc (depth_of_line l).
Proof.
  intros Hi. unfold depth_step.
  destruct (Z.eqb_spec i 1) as [|_]; [contradiction|].
  destruct (Z.gtb_spec (depth_of_line l) acc); lia.
Qed.

Lemma fold_max_shift d l :
  forall acc, fold_right Z.max (Z.max acc d) l
              = Z.max d (fold_right Z.max acc l).
Proof. induction l as [|x l IH]; intros acc; simpl; [|rewrite IH]; lia. Qed.

Lemma depth_loop_tail l :
  forall start acc, 1 < start ->
    fold_left depth_step (enumerate l start) acc
    = fold_right Z.max acc (map depth_of_line l).
Proof.
  induction l as [|x l IH]; intros start acc Hs; [reflexivity|].
  cbn [enumerate fold_left map fold_right].
  rewrite depth_step_max by lia.
  rewrite IH by lia. apply fold_max_shift.
Qed.

Lemma depth_loop first rest :
  fold_left depth_step (enumerate (first :: rest) 1) 0
  = max_depth (map depth_of_line rest).
Proof.
  cbn [enumerate fold_left]. unfold depth_step at 2.
  rewrite Z.eqb_refl. apply depth_loop_tail. lia.
Qed.

Lemma max_depth_upper ds d : In d ds -> d <= max_depth ds.
Proof.
  unfold max_depth. induction ds as [|x ds IH]; simpl; [contradiction|].
  intros [->|H]; [|apply IH in H]; lia.
Qed.

Lemma max_depth_attained ds :
  max_depth ds = 0 \/ In (max_depth ds) ds.
Proof.
  unfold max_depth. induction ds as [|x ds IH]; simpl; [now left|].
  destruct (Z.max_spec x (fold_right Z.max 0 ds)) as [[_ E]|[_ E]];
    rewrite E; [|now right; left].
  destruct IH as [IH|IH]; [now left | now right; right].
Qed.

(** [line.split()] and the first token of a line. *)
Lemma split_from_blank ws s :
  blank ws -> split_from [] (ws ++ s) = split_from [] s.
Proof.
  induction 1 as [|c ws Hc _ IH]; [reflexivity|].
  simpl. now rewrite Hc.
Qed.

Lemma split_from_word w s :
  Forall (fun c => isspace c = false) w ->
  forall cur, split_from cur (w ++ s) = split_from (rev w ++ cur) s.
Proof.
  induction 1 as [|c w Hc _ IH]; intros cur; [reflexivity|].
  simpl. rewrite Hc, IH, <- app_assoc. reflexivity.
Qed.

Lemma split_from_end cur rest :
  cur <> [] ->
  match rest with [] => True | c :: _ => isspace c = true end ->
  exists more, split_from cur rest = rev cur :: more.
Proof.
  intros Hc Hr. destruct rest as [|c rest]; simpl.
  - destruct cur; [congruence | eauto].
  - rewrite Hr. destruct cur; [congruence | eauto].
Qed.

Lemma split_first_token l name :
  first_token l name -> exists more, split l = name :: more.
Proof.
  intros (ws & rest & -> & Hws & Hne & Hname & Hrest).
  unfold split. rewrite split_from_blank by exact Hws.
  rewrite split_from_word by exact Hname.
  rewrite app_nil_r.
  destruct (split_from_end (rev name) rest) as [more E]; [|exact Hrest|].
  - intros H. apply (f_equal (@rev char)) in H.
    rewrite rev_involutive in H. contradiction.
  - rewrite rev_involutive in E. eauto.
Qed.

Lemma word_prefix l :
  exists w rest,
    l = w ++ rest /\ Forall (fun c => isspace c = false) w /\
    match rest with [] => True | c :: _ => isspace c = true end.
Proof.
  induction l as [|c l (w & rest & -> & Hw & Hr)].
  - exists [], []. repeat split. constructor.
  - destruct (isspace c) eqn:E.
    + exists [], (c :: w ++ rest). repeat split; [constructor | exact E].
    + exists (c :: w), rest. repeat split; [now constructor | exact Hr].
Qed.

Lemma split_cases l :
  (blank l /\ split l = []) \/ exists name, first_token l name.
Proof.
  induction l as [|c l IH].
  - left. split; [constructor | reflexivity].
  - destruct (isspace c) eqn:E.
    + destruct IH as [[Hb Hs]|(name & ws & rest & -> & Hws & H)].
      * left. split; [now constructor|].
        unfold split in *. simpl. now rewrite E.
      * right. exists name, (c :: ws), rest.
        split; [reflexivity|]. split; [now constructor | exact H].
    + right. destruct (word_prefix l) as (w & rest & -> & Hw & Hr).
      exists (c :: w), [], rest.
      repeat split; [constructor | discriminate | now constructor | exact Hr].
Qed.

Lemma split_head_token l name more :
  split l = name :: more -> first_token l name.
Proof.
  intros Hs. destruct (split_cases l) as [[_ E]|[name' Ht]].
  - congruence.
  - destruct (split_first_token _ _ Ht) as [more' E].
    rewrite Hs in E. injection E as -> _. exact Ht.
Qed.

(** *** The order of strings and of the top-20 keys *)

Lemma ltb_lex a : forall b, ltb a b = true <-> lex_lt a b.
Proof.
  induction a as [|x a IH]; intros [|y b]; simpl.
  - split; [discriminate | inversion 1].
  - split; [constructor | reflexivity].
  - split; [discriminate | inversion 1].
  - destruct (N.ltb_spec x y) as [Hxy|Hxy].
    + split; [now constructor | reflexivity].
    + destruct (N.ltb_spec y x) as [Hyx|Hyx].
      * split; [discriminate|]. inversion 1; subst; lia.
      * assert (x = y) as -> by lia. rewrite IH.
        split; [now constructor|]. inversion 1; subst; [lia | assumption].
Qed.

Lemma lex_lt_irrefl a : ~ lex_lt a a.
Proof. induction a; inversion 1; subst; [lia | auto]. Qed.

Lemma lex_lt_trans a b c : lex_lt a b -> lex_lt b c -> lex_lt a c.
Proof.
  intros H. revert c.
  induction H as [x b|x y a b Hxy|x a b H IH]; intros c Hc;
    inversion Hc; subst; try (constructor; lia; fail).
  apply lex_lt_tail. now apply IH.
Qed.

Lemma lex_total a : forall b, a = b \/ lex_lt a b \/ lex_lt b a.
Proof.
  induction a as [|x a IH]; intros [|y b].
  - now left.
  - right. left. constructor.
  - right. right. constructor.
  - destruct (N.lt_total x y) as [H|[->|H]].
    + right. left. now constructor.
    + destruct (IH b) as [->|[H|H]];
        [now left | right; left | right; right]; now constructor.
    + right. right. now constructor.
Qed.

Lemma ltb_asym a b : ltb a b = true -> ltb b a = false.
Proof.
  intros H. apply ltb_lex in H.
  destruct (ltb b a) eqn:E; [|reflexivity].
  apply ltb_lex in E. exfalso.
  apply (lex_lt_irrefl a). eapply lex_lt_trans; eassumption.
Qed.

Lemma precedes_ltb_lex a b : precedes ltb a b <-> lex_le a b.
Proof.
  unfold precedes, lex_le. split.
  - intros H. destruct (lex_total a b) as [E|[E|E]]; auto.
    apply ltb_lex in E. congruence.
  - intros [->|H].
    + destruct (ltb b b) eqn:E; [|reflexivity].
      apply ltb_lex in E. now apply lex_lt_irrefl in E.
    + apply ltb_asym. now apply ltb_lex.
Qed.

Lemma lex_le_trans a b c : lex_le a b -> lex_le b c -> lex_le a c.
Proof.
  intros [->|H1] [->|H2]; unfold lex_le; auto.
  right. eapply lex_lt_trans; eassumption.
Qed.

Lemma lex_le_antisym a b : lex_le a b -> lex_le b a -> a = b.
Proof.
  intros [E|H1] [E'|H2]; auto.
  exfalso. apply (lex_lt_irrefl a). eapply lex_lt_trans; eassumption.
Qed.

Lemma precedes_ltb_trans a b c :
  precedes ltb a b -> precedes ltb b c -> precedes ltb a c.
Proof.
  intros H1 H2. apply precedes_ltb_lex in H1, H2.
  apply precedes_ltb_lex. eapply lex_le_trans; eassumption.
Qed.

Lemma precedes_top a b : precedes top_ltb a b <-> top_order a b.
Proof.
  unfold precedes, top_ltb, key_ltb, top_key, top_order. simpl.
  destruct (Z.eqb_spec (- snd b) (- snd a)) as [E|E].
  - fold (precedes ltb (fst a) (fst b)). rewrite precedes_ltb_lex.
    split; [intros H; right; split; [lia | exact H]|].
    intros [H|[_ H]]; [lia | exact H].
  - rewrite Z.ltb_ge. split; [intros H; left; lia|].
    intros [H|[H _]]; lia.
Qed.

Lemma top_ltb_asym a b : top_ltb a b = true -> top_ltb b a = false.
Proof.
  unfold top_ltb, key_ltb, top_key. simpl.
  destruct (Z.eqb_spec (- snd a) (- snd b)) as [E|E].
  - rewrite E, Z.eqb_refl. apply ltb_asym.
  - destruct (Z.eqb_spec (- snd b) (- snd a)) as [E'|_]; [lia|].
    rewrite Z.ltb_lt, Z.ltb_ge. lia.
Qed.

Lemma top_order_trans a b c : top_order a b -> top_order b c -> top_order a c.
Proof.
  unfold top_order.
  intros [H1|[H1 L1]] [H2|[H2 L2]]; try (left; lia).
  right. split; [lia | eapply lex_le_trans; eassumption].
Qed.

Lemma precedes_top_trans a b c :
  precedes top_ltb a b -> precedes top_ltb b c -> precedes top_ltb a c.
Proof.
  intros H1 H2. apply precedes_top in H1, H2.
  apply precedes_top. eapply top_order_trans; eassumption.
Qed.

Lemma top_order_antisym a b : top_order a b -> top_order b a -> a = b.
Proof.
  unfold top_order. destruct a as [na da], b as [nb db]. simpl.
  intros [H1|[H1 L1]] [H2|[H2 L2]]; try lia.
  f_equal; [now apply lex_le_antisym | exact H1].
Qed.

(** *** Indexing and [bisect_right] *)

Lemma getitem_nth {A} (l : list A) i :
  0 <= i < len l -> getitem l i = nth_error l (Z.to_nat i).
Proof.
  intros H. unfold getitem.
  destruct (Z.ltb_spec i 0); [lia|].
  destruct (Z.ltb_spec i 0); [lia|].
  destruct (Z.leb_spec (len l) i); [lia | reflexivity].
Qed.

Lemma getitem_some {A} (l : list A) i :
  0 <= i < len l -> exists v, getitem l i = Some v.
Proof.
  intros H. rewrite getitem_nth by exact H.
  destruct (nth_error l (Z.to_nat i)) eqn:E; [eauto|].
  apply nth_error_None in E. unfold len in H. lia.
Qed.

Lemma sorted_nth (a : list Z) :
  StronglySorted Z.le a ->
  forall i j vi vj, (i <= j)%nat ->
    nth_error a i = Some vi -> nth_error a j = Some vj -> vi <= vj.
Proof.
  induction 1 as [|v a Hs IH Hall]; intros i j vi vj Hij Hi Hj.
  - destruct i; discriminate.
  - destruct i as [|i], j as [|j]; simpl in *; try lia.
    + injection Hi as ->. injection Hj as ->. lia.
    + injection Hi as ->. apply nth_error_In in Hj.
      rewrite Forall_forall in Hall. now apply Hall.
    + eapply IH; [|eassumption..]. lia.
Qed.

Lemma bisect_right_loop_splits a x :
  StronglySorted Z.le a ->
  forall n lo hi, Z.to_nat (hi - lo) = n ->
    0 <= lo <= hi -> hi <= len a -> splits a x lo hi ->
    exists r, bisect_right_loop a x lo hi = Some r /\
              lo <= r <= hi /\ splits a x r r.
Proof.
  intros Hs n. induction n as [n IH] using lt_wf_ind.
  intros lo hi Hn Hr Hlen [Hlo Hhi].
  rewrite bisect_right_loop_equation_1. simpl.
  destruct (Z_lt_dec lo hi) as [Hlt|Hge]; simpl.
  - assert ((lo + hi) / 2 < hi) as Hm1
        by (apply Z.div_lt_upper_bound; lia).
    assert (lo <= (lo + hi) / 2) as Hm2
        by (apply Z.div_le_lower_bound; lia).
    set (mid := (lo + hi) / 2) in *.
    destruct (getitem_some a mid) as [am Ham]; [lia|].
    rewrite Ham. simpl.
    rewrite getitem_nth in Ham by lia.
    destruct (Z_lt_dec x am) as [Hx|Hx]; simpl.
    + destruct (IH (Z.to_nat (mid - lo))) with (lo := lo) (hi := mid)
        as (r & Hr1 & Hr2 & Hr3); try lia.
      * split; [exact Hlo|].
        intros i v Hi Hge. assert (am <= v); [|lia].
        eapply (sorted_nth a Hs (Z.to_nat mid) i); [lia | eassumption..].
      * exists r. split; [exact Hr1|]. split; [lia | exact Hr3].
    + destruct (IH (Z.to_nat (hi - (mid + 1)))) with (lo := mid + 1) (hi := hi)
        as (r & Hr1 & Hr2 & Hr3); try lia.
      * split; [|exact Hhi].
        intros i v Hi Hlt'. assert (v <= am); [|lia].
        eapply (sorted_nth a Hs i (Z.to_nat mid)); [lia | eassumption..].
      * exists r. split; [exact Hr1|]. split; [lia | exact Hr3].
  - exists lo. assert (lo = hi) as -> by lia.
    split; [reflexivity|]. split; [lia | now split].
Qed.

Lemma splits_count a x :
  forall r, (r <= length a)%nat ->
    splits a x (Z.of_nat r) (Z.of_nat r) -> count_le x a = Z.of_nat r.
Proof.
  unfold count_le, len.
  induction a as [|v a IH]; intros r Hr [Hlo Hhi]; simpl in *.
  - f_equal. lia.
  - destruct r as [|r].
    + assert (x < v) by (apply (Hhi O); [reflexivity | lia]).
      destruct (Z.leb_spec v x); [lia|].
      apply (IH O); [lia|]. split.
      * intros i w _ Hi. lia.
      * intros i w Hi _. apply (Hhi (S i)); [exact Hi | lia].
    + assert (v <= x) by (apply (Hlo O); [reflexivity | lia]).
      destruct (Z.leb_spec v x); [|lia].
      simpl length. rewrite !Nat2Z.inj_succ. f_equal.
      apply IH; [lia|]. split.
      * intros i w Hi Hlt. apply (Hlo (S i)); [exact Hi | lia].
      * intros i w Hi Hge. apply (Hhi (S i)); [exact Hi | lia].
Qed.

(** On a list in ascending order [bisect_right] returns, and what it
    returns is the number of elements at most [x]. *)
Lemma bisect_right_count a x :
  StronglySorted Z.le a -> bisect_right a x = Some (count_le x a).
Proof.
  intros Hs. unfold bisect_right.
  destruct (bisect_right_loop_splits a x Hs _ 0 (len a) eq_refl)
    as (r & Hr & Hb & Hsp).
  - unfold len. lia.
  - lia.
  - split; [intros; lia|].
    intros i v Hi Hge.
    assert (nth_error a i <> None) as Hn by congruence.
    apply nth_error_Some in Hn. unfold len in Hge. lia.
  - rewrite Hr. f_equal. symmetry.
    rewrite <- (Z2Nat.id r) in Hsp |- * by lia.
    apply splits_count; [unfold len in Hb; lia | exact Hsp].
Qed.

Lemma count_le_bounds x l : 0 <= count_le x l <= len l.
Proof.
  unfold count_le, len. split; [lia|].
  apply Nat2Z.inj_le, filter_length_le.
Qed.

Lemma filter_perm {A} (f : A -> bool) l1 l2 :
  Permutation l1 l2 -> Permutation (filter f l1) (filter f l2).
Proof.
  induction 1 as [|a l1 l2 _ IH|a b l|l1 l2 l3 _ IH1 _ IH2]; simpl.
  - constructor.
  - destruct (f a); [now constructor | exact IH].
  - destruct (f a), (f b); try reflexivity. apply perm_swap.
  - etransitivity; eassumption.
Qed.

Lemma count_le_perm x l1 l2 :
  Permutation l1 l2 -> count_le x l1 = count_le x l2.
Proof.
  intros Hp. unfold count_le, len. f_equal.
  apply Permutation_length, filter_perm, Hp.
Qed.

Lemma count_le_in x l : In x l -> 1 <= count_le x l.
Proof.
  unfold count_le, len. intros H.
  assert (In x (filter (fun d => d <=? x) l)) as Hf
    by (apply filter_In; split; [exact H | apply Z.leb_refl]).
  destruct (filter _ l); [contradiction | simpl length; lia].
Qed.

(** *** Quartile positions *)

Lemma int_quarters_div k n :
  0 <= k -> 0 <= n -> int_quarters k n = k * n / 4.
Proof.
  intros Hk Hn. unfold int_quarters.
  apply Z.quot_div_nonneg; nia.
Qed.

Lemma int_quarters_range k n :
  0 <= k <= 3 -> 0 < n -> 0 <= int_quarters k n < n.
Proof.
  intros Hk Hn. rewrite int_quarters_div by lia. split.
  - apply Z.div_pos; nia.
  - apply Z.div_lt_upper_bound; nia.
Qed.

Lemma int_quarters_mono k k' n :
  0 <= k <= k' -> 0 <= n -> int_quarters k n <= int_quarters k' n.
Proof.
  intros Hk Hn. rewrite !int_quarters_div by lia.
  apply Z.div_le_mono; nia.
Qed.

Lemma int_quarters_nat k (l : list Z) :
  Z.to_nat (int_quarters (Z.of_nat k) (len l)) = (k * length l / 4)%nat.
Proof.
  unfold len. rewrite int_quarters_div by lia.
  rewrite <- Nat2Z.inj_mul.
  change 4 with (Z.of_nat 4).
  rewrite <- Nat2Z.inj_div. apply Nat2Z.id.
Qed.

(** The three lookups of a non-empty list succeed, at the positions
    [n/4], [2n/4] and [3n/4] rounded down. *)
Lemma quartiles_some (l : list Z) :
  l <> [] ->
  exists q1 q2 q3,
    quartiles l = Some (q1, q2, q3) /\
    nth_error l (1 * length l / 4) = Some q1 /\
    nth_error l (2 * length l / 4) = Some q2 /\
    nth_error l (3 * length l / 4) = Some q3.
Proof.
  intros Hne.
  assert (0 < len l) as Hn
    by (unfold len; destruct l; [congruence | simpl length; lia]).
  unfold quartiles.
  destruct (getitem_some l (int_quarters 1 (len l))) as [q1 E1];
    [apply int_quarters_range; lia|].
  destruct (getitem_some l (int_quarters 2 (len l))) as [q2 E2];
    [apply int_quarters_range; lia|].
  destruct (getitem_some l (int_quarters 3 (len l))) as [q3 E3];
    [apply int_quarters_range; lia|].
  rewrite E1, E2, E3. exists q1, q2, q3. split; [reflexivity|].
  rewrite getitem_nth in E1, E2, E3 by (apply int_quarters_range; lia).
  change 1 with (Z.of_nat 1) in E1. change 2 with (Z.of_nat 2) in E2.
  change 3 with (Z.of_nat 3) in E3.
  rewrite int_quarters_nat in E1, E2, E3. auto.
Qed.

Lemma quartiles_ordered (l : list Z) q1 q2 q3 :
  StronglySorted Z.le l -> quartiles l = Some (q1, q2, q3) ->
  q1 <= q2 <= q3.
Proof.
  intros Hs Hq.
  destruct l as [|x l']; [discriminate|].
  destruct (quartiles_some (x :: l')) as (a & b & c & E & H1 & H2 & H3);
    [discriminate|].
  rewrite Hq in E. injection E as <- <- <-.
  split; (eapply (sorted_nth _ Hs); [|eassumption..]);
    apply Nat.Div0.div_le_mono; lia.
Qed.

(** *** Dictionaries *)

Lemma eqb_eq a b : eqb a b = true <-> a = b.
Proof.
  unfold eqb. destruct (list_eq_dec N.eq_dec a b); split;
    congruence.
Qed.

Lemma eqb_refl a : eqb a a = true.
Proof. now apply eqb_eq. Qed.

Lemma eqb_neq a b : a <> b -> eqb a b = false.
Proof.
  intros H. destruct (eqb a b) eqn:E; [|reflexivity].
  apply eqb_eq in E. contradiction.
Qed.

Lemma dict_get_set_same {V} (m : dict V) k v :
  dict_get (dict_set m k v) k = Some v.
Proof.
  induction m as [|[k' v'] m IH]; simpl.
  - now rewrite eqb_refl.
  - destruct (eqb k' k) eqn:E; simpl; rewrite E; [reflexivity | exact IH].
Qed.

Lemma dict_get_set_other {V} (m : dict V) k v k' :
  k' <> k -> dict_get (dict_set m k v) k' = dict_get m k'.
Proof.
  intros Hne. induction m as [|[k0 v0] m IH]; simpl.
  - rewrite eqb_neq by congruence. reflexivity.
  - destruct (eqb k0 k) eqn:E; simpl.
    + apply eqb_eq in E. subst k0.
      rewrite eqb_neq by congruence. reflexivity.
    + destruct (eqb k0 k'); [reflexivity | exact IH].
Qed.

Lemma dict_get_in {V} (m : dict V) k v :
  dict_get m k = Some v -> In (k, v) (items m).
Proof.
  unfold items. induction m as [|[k' v'] m IH]; simpl; [discriminate|].
  destruct (eqb k' k) eqn:E.
  - apply eqb_eq in E. intros H. injection H as ->. left. congruence.
  - intros H. right. now apply IH.
Qed.

(** *** The measuring loop *)

Section MeasureLoop.

Variable measure : str -> option Z.

Let loop (funcs : list str) (st : list Z * dict Z) :=
  fold_left (fun st f => measure_step (measure f) f st) funcs st.

Lemma loop_depths funcs :
  forall st, fst (loop funcs st) = fst st ++ measured measure funcs.
Proof.
  unfold loop, measured.
  induction funcs as [|f funcs IH]; intros st; simpl.
  - now rewrite app_nil_r.
  - rewrite IH. unfold measure_step.
    destruct (measure f); simpl; [now rewrite <- app_assoc | reflexivity].
Qed.

Lemma loop_get funcs f :
  forall st,
    dict_get (snd (loop funcs st)) f
    = match (if in_dec (list_eq_dec N.eq_dec) f funcs
             then measure f else None) with
      | Some d => Some d
      | None => dict_get (snd st) f
      end.
Proof.
  unfold loop.
  induction funcs as [|g funcs IH]; intros st; [reflexivity|].
  cbn [fold_left]. rewrite IH. clear IH.
  destruct (in_dec (list_eq_dec N.eq_dec) f (g :: funcs)) as [Hin|Hout];
    destruct (in_dec (list_eq_dec N.eq_dec) f funcs) as [Hin'|Hout'];
    try (exfalso; apply Hout; now right).
  - destruct (measure f) eqn:Ef; [reflexivity|].
    unfold measure_step. destruct (measure g) eqn:Eg; [|reflexivity].
    simpl. apply dict_get_set_other. congruence.
  - destruct Hin as [->|Hin]; [|contradiction].
    unfold measure_step. destruct (measure f) eqn:Ef; [|reflexivity].
    simpl. apply dict_get_set_same.
  - unfold measure_step. destruct (measure g) eqn:Eg; [|reflexivity].
    simpl. apply dict_get_set_other.
    intros ->. apply Hout. now left.
Qed.

Lemma measured_in funcs f d :
  In f funcs -> measure f = Some d -> In d (measured measure funcs).
Proof.
  intros Hin Hm. unfold measured. apply in_flat_map.
  exists f. split; [exact Hin|]. rewrite Hm. now left.
Qed.

Lemma measured_nil funcs :
  measured measure funcs = [] <->
  forall f, In f funcs -> measure f = None.
Proof.
  unfold measured. induction funcs as [|g funcs IH]; simpl.
  - split; [contradiction | reflexivity].
  - split.
    + intros H f [->|Hin].
      * destruct (measure f); [discriminate | reflexivity].
      * apply app_eq_nil in H. apply IH; tauto.
    + intros H. rewrite (H g) by now left.
      apply IH. intros f Hf. apply H. now right.
Qed.

Lemma dict_set_new {V} (m : dict V) k v :
  dict_get m k = None -> dict_set m k v = m ++ [(k, v)].
Proof.
  induction m as [|[k' v'] m IH]; simpl; [reflexivity|].
  destruct (eqb k' k); [discriminate|]. intros H. now rewrite IH.
Qed.

(** Distinct functions give distinct keys: the map has one entry for each
    measured depth. *)
Lemma loop_size funcs :
  NoDup funcs ->
  forall st, (forall f, In f funcs -> dict_get (snd st) f = None) ->
    length (snd (loop funcs st))
    = (length (snd st) + length (measured measure funcs))%nat.
Proof.
  unfold loop, measured.
  induction 1 as [|g funcs Hg Hnd IH]; intros st Hfresh; simpl.
  - lia.
  - rewrite IH.
    + unfold measure_step. destruct (measure g) as [d|]; simpl; [|lia].
      rewrite dict_set_new by (apply Hfresh; now left).
      rewrite length_app. simpl. lia.
    + intros f Hf. unfold measure_step.
      destruct (measure g) as [d|]; simpl.
      * rewrite dict_get_set_other by (intros ->; contradiction).
        apply Hfresh. now right.
      * apply Hfresh. now right.
Qed.

End MeasureLoop.

Section ShellFacts.

Variable run : str -> option str -> str.

Lemma measure_all_depths src_root funcs :
  fst (measure_all run src_root funcs)
  = measured (fun f => max_call_depth_for run f src_root) funcs.
Proof.
  unfold measure_all.
  apply (loop_depths (fun f => max_call_depth_for run f src_root)).
Qed.

Lemma measure_all_get src_root funcs f d :
  dict_get (snd (measure_all run src_root funcs)) f = Some d <->
  In f funcs /\ max_call_depth_for run f src_root = Some d.
Proof.
  unfold measure_all.
  rewrite (loop_get (fun f => max_call_depth_for run f src_root)).
  destruct (in_dec (list_eq_dec N.eq_dec) f funcs) as [Hin|Hout]; simpl.
  - destruct (max_call_depth_for run f src_root); simpl.
    + split; [intros H; now split | now intros [_ H]].
    + split; [discriminate | now intros [_ H]].
  - split; [discriminate | tauto].
Qed.

Lemma measure_all_get_none src_root funcs f :
  dict_get (snd (measure_all run src_root funcs)) f = None <->
  (In f funcs -> max_call_depth_for run f src_root = None).
Proof.
  destruct (dict_get (snd (measure_all run src_root funcs)) f) as [d|] eqn:E.
  - apply measure_all_get in E. destruct E as [Hin Hm].
    split; [discriminate|]. intros H. rewrite (H Hin) in Hm. discriminate.
  - split; [|reflexivity]. intros _ Hin.
    destruct (max_call_depth_for run f src_root) as [d|] eqn:Em;
      [|reflexivity].
    assert (dict_get (snd (measure_all run src_root funcs)) f = Some d)
      as E' by (apply measure_all_get; auto).
    congruence.
Qed.

(** Every depth stored in the map is in the depth list. *)
Lemma measure_all_value_in src_root funcs f d :
  dict_get (snd (measure_all run src_root funcs)) f = Some d ->
  In d (fst (measure_all run src_root funcs)).
Proof.
  intros H. apply measure_all_get in H. destruct H as [Hin Hm].
  rewrite measure_all_depths.
  now apply (measured_in (fun f => max_call_depth_for run f src_root) funcs f).
Qed.

(** For distinct functions the map has as many entries as there are
    measured depths. *)
Lemma measure_all_size src_root funcs :
  NoDup funcs ->
  length (items (snd (measure_all run src_root funcs)))
  = length (fst (measure_all run src_root funcs)).
Proof.
  intros Hnd. rewrite measure_all_depths. unfold measure_all, items.
  rewrite (loop_size (fun f => max_call_depth_for run f src_root) funcs Hnd);
    [reflexivity | reflexivity].
Qed.

End ShellFacts.

(** *** The report *)

Lemma report_absent target depths depth_map :
  depths <> [] -> dict_get depth_map target = None ->
  report target depths depth_map
  = ([TargetNotMeasured target; FallbackTopHeader]
       ++ print_top (top20 depth_map), SysExit 4).
Proof.
  intros Hne Hg. unfold report. rewrite Hg.
  destruct depths; [congruence | reflexivity].
Qed.

Lemma report_present target depths depth_map td :
  depths <> [] -> dict_get depth_map target = Some td ->
  let s := sorted Z.ltb depths in
  let rank := count_le td s in
  let pct := (100 * inject_Z rank / inject_Z (len s))%Q in
  bisect_right s td = Some rank /\
  percentile rank (len s) = Some pct /\
  exists q1 q2 q3,
    quartiles s = Some (q1, q2, q3) /\
    report target depths depth_map
    = ([ReportHeader; ReportTarget target; ReportDepth td;
        ReportPosition (100 - pct)%Q pct; ReportCount (len s); Blank;
        ReportQuartiles q1 q2 q3; ReportClass (classify td q1 q3);
        TopHeader] ++ print_top (top20 depth_map), Returned).
Proof.
  intros Hne Hg s rank pct.
  assert (s <> []) as Hs
    by (intros E; apply Hne; now apply (sorted_nil_inv Z.ltb)).
  assert (bisect_right s td = Some rank) as Hb
    by (apply bisect_right_count, sorted_Z_sorted).
  assert (percentile rank (len s) = Some pct) as Hp.
  { unfold percentile.
    destruct (Z.eqb_spec (len s) 0) as [E|_]; [|reflexivity].
    destruct s; [congruence | unfold len in E; simpl length in E; lia]. }
  split; [exact Hb|]. split; [exact Hp|].
  destruct (quartiles_some s Hs) as (q1 & q2 & q3 & Hq & _).
  exists q1, q2, q3. split; [exact Hq|].
  unfold report. rewrite Hg. fold s. rewrite Hb, Hp, Hq.
  destruct depths; [congruence | reflexivity].
Qed.

(* ------------------------------------------------------------------ *)
(** ** The depth measurer *)

Lemma depth_of_output_blank text :
  depth_of_output text = None <-> blank text.
Proof.
  unfold depth_of_output. rewrite <- strip_nil_iff.
  destruct (strip text); split; congruence.
Qed.

Lemma depth_of_output_lines text root rest :
  ~ blank text -> splitlines text = root :: rest ->
  depth_of_output text = Some (max_depth (map depth_of_line rest)).
Proof.
  intros Hb Hl. unfold depth_of_output.
  destruct (strip text) eqn:E.
  - apply strip_nil_iff in E. contradiction.
  - rewrite Hl, depth_loop. reflexivity.
Qed.

Lemma not_blank_nonempty text : ~ blank text -> text <> [].
Proof. intros Hb ->. apply Hb. constructor. Qed.

(** C3 (as amended): for every call-graph tool output that is not empty or
    whitespace-only, the depth measurer leaves out the first line, gives
    every other line the depth (number of leading spaces) // 2, and
    returns the largest of these depths, 0 when there is no other line. *)
Theorem depth_is_max_over_non_root_lines :
  forall run func src_root,
    let text := run (cflow_cmd func src_root) (Some src_root) in
    ~ blank text ->
    exists root rest,
      splitlines text = root :: rest /\
      max_call_depth_for run func src_root
      = Some (max_depth
                (map (fun l => Z.of_nat (leading_spaces l) / 2) rest)).
Proof.
  intros run func src_root text Hb.
  destruct (splitlines_nonempty text (not_blank_nonempty _ Hb))
    as (root & rest & Hl).
  exists root, rest. split; [exact Hl|].
  unfold max_call_depth_for. fold text.
  rewrite (depth_of_output_lines text root rest Hb Hl).
  do 2 f_equal. apply map_ext. intros l.
  unfold depth_of_line. now rewrite leading_count.
Qed.

(** The tree of [c] in [Recorded.abc] has lines of 0, 2, 4, 6, 8 and 2
    leading spaces: depth 4. *)
Lemma depth_is_max_over_non_root_lines_witness :
  ~ blank (Recorded.abc (cflow_cmd (lit "c") (lit ".")) (Some (lit "."))) /\
  exists root rest,
    splitlines (Recorded.abc (cflow_cmd (lit "c") (lit ".")) (Some (lit ".")))
    = root :: rest /\
    max_call_depth_for Recorded.abc (lit "c") (lit ".")
    = Some (max_depth (map (fun l => Z.of_nat (leading_spaces l) / 2) rest)).
Proof.
  assert (~ blank (Recorded.abc (cflow_cmd (lit "c") (lit "."))
                     (Some (lit ".")))) as Hb.
  { intros H. apply depth_of_output_blank in H.
    vm_compute in H. discriminate. }
  split; [exact Hb|].
  exact (depth_is_max_over_non_root_lines Recorded.abc (lit "c") (lit ".") Hb).
Defined.

(** C3 as stated fails on a tool output without any visible character:
    the empty output has no line other than the root, and the output made
    of an empty line and a line of six spaces has one of depth 3, yet the
    measurer returns [None] for both. *)
Lemma blank_output_has_no_depth :
  (splitlines (Recorded.silent (cflow_cmd (lit "f") (lit "."))
                 (Some (lit "."))) = [] /\
   max_call_depth_for Recorded.silent (lit "f") (lit ".") = None) /\
  (let run := fun (_ : str) (_ : option str) => LF :: repeat SP 6 in
   map depth_of_line
     (tl (splitlines (run (cflow_cmd (lit "f") (lit ".")) (Some (lit ".")))))
   = [3] /\
   max_call_depth_for run (lit "f") (lit ".") = None).
Proof. vm_compute. repeat split; reflexivity. Qed.

(** C4: the measurer returns [None] exactly when the tool output is
    empty or whitespace-only; an output that is a single root line gives
    depth 0; in the measuring loop a function of depth 0 is kept in the
    depth list and in the depth map, and a function that cannot be
    measured enters neither. *)
Theorem unmeasurable_iff_blank_and_zero_retained :
  forall run src_root,
    (forall func,
        max_call_depth_for run func src_root = None <->
        blank (run (cflow_cmd func src_root) (Some src_root))) /\
    (forall func root,
        ~ blank (run (cflow_cmd func src_root) (Some src_root)) ->
        splitlines (run (cflow_cmd func src_root) (Some src_root)) = [root] ->
        max_call_depth_for run func src_root = Some 0) /\
    (forall funcs,
        let st := measure_all run src_root funcs in
        (forall f, In f funcs ->
                   max_call_depth_for run f src_root = Some 0 ->
                   dict_get (snd st) f = Some 0 /\ In 0 (fst st)) /\
        (forall f, max_call_depth_for run f src_root = None ->
                   dict_get (snd st) f = None /\ ~ In f (keys (snd st))) /\
        fst st = measured (fun f => max_call_depth_for run f src_root) funcs).
Proof.
  intros run src_root. split; [|split].
  - intros func. apply depth_of_output_blank.
  - intros func root Hb Hl. unfold max_call_depth_for.
    now rewrite (depth_of_output_lines _ root [] Hb Hl).
  - intros funcs st. split; [|split].
    + intros f Hin Hm.
      assert (dict_get (snd st) f = Some 0) as Hg
        by (apply measure_all_get; auto).
      split; [exact Hg|]. now apply (measure_all_value_in run src_root funcs f).
    + intros f Hm.
      assert (dict_get (snd st) f = None) as Hg
        by (apply measure_all_get_none; auto).
      split; [exact Hg|].
      intros Hk. unfold keys in Hk. apply in_map_iff in Hk.
      destruct Hk as [[k v] [<- Hkv]]. simpl in Hg.
      clear - Hg Hkv. induction (snd st) as [|[k' v'] m IH];
        simpl in *; [contradiction|].
      destruct (eqb k' k) eqn:E; [discriminate|].
      destruct Hkv as [Hkv|Hkv]; [|auto].
      injection Hkv as -> ->. rewrite eqb_refl in E. discriminate.
    + apply measure_all_depths.
Qed.

(** A function of depth 0 and one that cannot be measured, in
    [Recorded.abc]. *)
Lemma unmeasurable_iff_blank_and_zero_retained_witness :
  let st := measure_all Recorded.abc (lit ".")
              [lit "a"; lit "b"; lit "c"; lit "d"] in
  (dict_get (snd st) (lit "a") = Some 0 /\ In 0 (fst st)) /\
  (dict_get (snd st) (lit "d") = None /\ ~ In (lit "d") (keys (snd st))).
Proof.
  intros st.
  destruct (unmeasurable_iff_blank_and_zero_retained Recorded.abc (lit "."))
    as (_ & _ & H).
  destruct (H [lit "a"; lit "b"; lit "c"; lit "d"]) as (Hzero & Hnone & _).
  split.
  - apply Hzero; [now left | reflexivity].
  - apply Hnone. reflexivity.
Defined.

(* ------------------------------------------------------------------ *)
(** ** The function enumerator *)

Lemma funcs_loop lines :
  forall acc,
    fold_left funcs_step lines acc
    = acc ++ flat_map (fun l => match split l with
                                | [] => []
                                | name :: _ => [name]
                                end) lines.
Proof.
  induction lines as [|l lines IH]; intros acc; simpl.
  - now rewrite app_nil_r.
  - rewrite IH. unfold funcs_step.
    destruct (split l); simpl; [reflexivity | now rewrite <- app_assoc].
Qed.

Lemma funcs_loop_in lines name :
  In name (fold_left funcs_step lines []) <->
  exists l, In l lines /\ first_token l name.
Proof.
  rewrite funcs_loop. simpl. rewrite in_flat_map. split.
  - intros (l & Hl & Hn). exists l. split; [exact Hl|].
    destruct (split l) as [|n more] eqn:E; [contradiction|].
    destruct Hn as [->|[]]. eapply split_head_token, E.
  - intros (l & Hl & Ht). exists l. split; [exact Hl|].
    destruct (split_first_token _ _ Ht) as [more ->]. now left.
Qed.

Lemma sorted_strict l :
  NoDup l -> StronglySorted lex_le l -> StronglySorted lex_lt l.
Proof.
  intros Hn Hs. induction Hs as [|a l Hs IH Hall]; constructor.
  - apply IH. now inversion Hn.
  - inversion Hn as [|? ? Hnot _]; subst.
    rewrite Forall_forall in *. intros b Hb.
    destruct (Hall b Hb) as [->|H]; [contradiction | exact H].
Qed.

Lemma funcs_of_output_in out name :
  In name (funcs_of_output out) <->
  exists l, In l (splitlines out) /\ first_token l name.
Proof.
  unfold funcs_of_output, set_of.
  rewrite sorted_in, nodup_In. apply funcs_loop_in.
Qed.

Lemma funcs_of_output_sorted out :
  NoDup (funcs_of_output out) /\ StronglySorted lex_lt (funcs_of_output out).
Proof.
  assert (NoDup (funcs_of_output out)) as Hn.
  { unfold funcs_of_output, set_of.
    eapply Permutation_NoDup; [symmetry; apply sorted_perm|].
    apply NoDup_nodup. }
  split; [exact Hn|]. apply sorted_strict; [exact Hn|].
  unfold funcs_of_output.
  apply (StronglySorted_impl (precedes ltb)).
  - intros a b. apply precedes_ltb_lex.
  - apply sorted_sorted; [apply ltb_asym | apply precedes_ltb_trans].
Qed.

(** The result of [sorted(set(funcs))] is the same for every order in
    which the set hands out its elements. *)
Lemma sorted_set_order_irrelevant funcs l :
  Permutation l (set_of funcs) -> sorted ltb l = sorted ltb (set_of funcs).
Proof.
  apply sorted_order_irrelevant.
  - apply ltb_asym.
  - apply precedes_ltb_trans.
  - intros a b Hab Hba. apply precedes_ltb_lex in Hab, Hba.
    now apply lex_le_antisym.
Qed.

Lemma splitlines_nil s : splitlines s = [] <-> s = [].
Proof.
  split; [|now intros ->].
  intros H. destruct s as [|c s]; [reflexivity|].
  destruct (splitlines_nonempty (c :: s)) as (f & r & E);
    [discriminate | congruence].
Qed.

(** C9: the function enumerator returns a list without duplicates, in
    ascending lexicographic order, whose elements are exactly the first
    whitespace-delimited tokens of the lines the symbol extractor printed;
    it returns the empty list when no file is found (both listings empty
    or whitespace-only) and when no line carries a symbol. *)
Theorem list_functions_sorted_unique_tokens :
  forall run src_root file_glob,
    let files := list_files run src_root file_glob in
    let out := run (ctags_cmd files) None in
    let funcs := list_functions run src_root file_glob in
    NoDup funcs /\
    StronglySorted lex_lt funcs /\
    (forall name, In name funcs ->
                  exists l, In l (splitlines out) /\ first_token l name) /\
    (files <> [] ->
     forall l name, In l (splitlines out) -> first_token l name ->
                    In name funcs) /\
    (blank (run (git_ls_cmd src_root file_glob) None) ->
     blank (run (find_cmd src_root) None) -> funcs = []) /\
    (files = [] -> funcs = []) /\
    ((forall l, In l (splitlines out) -> split l = []) -> funcs = []).
Proof.
  intros run src_root file_glob files out funcs.
  assert (funcs = match files with [] => [] | _ => funcs_of_output out end)
    as Hf by (unfold funcs, list_functions; fold files; now destruct files).
  assert (files = [] -> funcs = []) as Hnofiles
    by (intros E; rewrite Hf, E; reflexivity).
  repeat apply conj.
  - rewrite Hf. destruct files; [constructor | apply funcs_of_output_sorted].
  - rewrite Hf. destruct files; [constructor | apply funcs_of_output_sorted].
  - intros name. rewrite Hf.
    destruct files; [contradiction | apply funcs_of_output_in].
  - intros Hne l name Hl Ht. rewrite Hf.
    destruct files; [congruence|]. apply funcs_of_output_in. eauto.
  - intros Hg Hfd. apply Hnofiles. unfold files, list_files.
    apply strip_nil_iff in Hg, Hfd. rewrite Hg, Hfd. reflexivity.
  - exact Hnofiles.
  - intros Hnone. rewrite Hf. destruct files as [|f fs]; [reflexivity|].
    destruct (funcs_of_output out) as [|name more] eqn:E; [reflexivity|].
    assert (In name (funcs_of_output out)) as Hin by (rewrite E; now left).
    apply funcs_of_output_in in Hin. destruct Hin as (l & Hl & Ht).
    destruct (split_first_token _ _ Ht) as [m Hs].
    rewrite (Hnone l Hl) in Hs. discriminate.
Qed.

(** The symbols of [Recorded.abc], where [b] is listed twice. *)
Lemma list_functions_sorted_unique_tokens_witness :
  list_functions Recorded.abc (lit ".") (lit "\.c$")
  = [lit "a"; lit "b"; lit "c"; lit "d"] /\
  NoDup (list_functions Recorded.abc (lit ".") (lit "\.c$")) /\
  StronglySorted lex_lt (list_functions Recorded.abc (lit ".") (lit "\.c$")).
Proof.
  split; [reflexivity|].
  pose proof (list_functions_sorted_unique_tokens Recorded.abc (lit ".")
                (lit "\.c$")) as (Hn & Hs & _).
  split; [exact Hn | exact Hs].
Defined.

(* ------------------------------------------------------------------ *)
(** ** Rank, percentile and quartiles *)

Lemma count_le_sorted x l : count_le x (sorted Z.ltb l) = count_le x l.
Proof. apply count_le_perm, sorted_perm. Qed.

Lemma len_sorted (l : list Z) : len (sorted Z.ltb l) = len l.
Proof. unfold len. now rewrite sorted_length. Qed.

(** C1: when the target is in the depth map, the rank computed by [main]
    is the number of measured depths that are at most the target's depth,
    and the percentile it prints is 100 * rank / (number of measured
    depths); for the depths 0, 2, 4 and a target of depth 2 the rank is 2
    and the percentile 100 * 2 / 3. *)
Theorem rank_is_count_and_percentile_is_ratio :
  (forall target depths depth_map td,
      depths <> [] -> dict_get depth_map target = Some td ->
      exists rank pct more,
        bisect_right (sorted Z.ltb depths) td = Some rank /\
        rank = count_le td depths /\
        percentile rank (len (sorted Z.ltb depths)) = Some pct /\
        (pct == 100 * inject_Z rank / inject_Z (len depths))%Q /\
        report target depths depth_map
        = ([ReportHeader; ReportTarget target; ReportDepth td;
            ReportPosition (100 - pct)%Q pct] ++ more, Returned)) /\
  (bisect_right [0; 2; 4] 2 = Some 2 /\
   exists pct, percentile 2 3 = Some pct /\ (pct == 100 * 2 / 3)%Q).
Proof.
  split.
  - intros target depths depth_map td Hne Hg.
    destruct (report_present target depths depth_map td Hne Hg)
      as (Hb & Hp & q1 & q2 & q3 & _ & Hr).
    rewrite count_le_sorted in Hb, Hp, Hr.
    eexists _, _, _.
    split; [exact Hb|]. split; [reflexivity|]. split; [exact Hp|].
    split; [now rewrite len_sorted | exact Hr].
  - split; [reflexivity|]. eexists. split; reflexivity.
Qed.

(** The scenario of the specification run through [main]: the depth map
    is a:0, b:2, c:4 and the target is [b]. *)
Lemma rank_is_count_and_percentile_is_ratio_witness :
  exists rank pct more,
    bisect_right (sorted Z.ltb [4; 0; 2]) 2 = Some rank /\
    rank = 2 /\
    (pct == 200 # 3)%Q /\
    main Recorded.abc [lit "prog"; lit "b"]
    = ([ReportHeader; ReportTarget (lit "b"); ReportDepth 2;
        ReportPosition (100 - pct)%Q pct] ++ more, Returned).
Proof.
  destruct (proj1 rank_is_count_and_percentile_is_ratio
              (lit "b") [4; 0; 2]
              [(lit "a", 0); (lit "b", 2); (lit "c", 4)] 2)
    as (rank & pct & more & Hb & Hrank & Hp & Hpct & Hr);
    [discriminate | reflexivity |].
  exists rank, pct, more.
  split; [exact Hb|]. split; [exact Hrank|].
  split; [rewrite Hpct, Hrank; reflexivity|].
  rewrite <- Hr. reflexivity.
Defined.

Lemma percentile_bounds rank n pct :
  0 <= rank <= n -> percentile rank n = Some pct -> (0 <= pct <= 100)%Q.
Proof.
  intros Hr. unfold percentile.
  destruct (Z.eqb_spec n 0) as [|Hn]; [discriminate|].
  intros H. injection H as <-.
  destruct n as [|p|p]; try lia.
  unfold Qle, Qdiv, Qmult, Qinv, inject_Z; cbn -[Z.mul Pos.mul].
  split; nia.
Qed.

(** C7: when the target is in the depth map built by the measuring loop,
    the rank lies between 1 and the number of measured depths, and the
    percentile between 0 and 100. *)
Theorem rank_and_percentile_bounds :
  forall run src_root funcs target td,
    let st := measure_all run src_root funcs in
    dict_get (snd st) target = Some td ->
    exists rank pct,
      bisect_right (sorted Z.ltb (fst st)) td = Some rank /\
      percentile rank (len (sorted Z.ltb (fst st))) = Some pct /\
      1 <= rank <= len (fst st) /\
      (0 <= pct <= 100)%Q.
Proof.
  intros run src_root funcs target td st Hg.
  assert (In td (fst st)) as Hin by (eapply measure_all_value_in; exact Hg).
  assert (fst st <> []) as Hne by (intros E; rewrite E in Hin; contradiction).
  destruct (report_present target (fst st) (snd st) td Hne Hg)
    as (Hb & Hp & _).
  rewrite count_le_sorted in Hb, Hp.
  assert (1 <= count_le td (fst st) <= len (fst st)) as Hr
    by (split; [now apply count_le_in | apply count_le_bounds]).
  rewrite len_sorted in *.
  eexists _, _. split; [exact Hb|]. split; [exact Hp|]. split; [exact Hr|].
  eapply percentile_bounds; [|exact Hp]. lia.
Qed.

Lemma rank_and_percentile_bounds_witness :
  exists rank pct,
    bisect_right
      (sorted Z.ltb
         (fst (measure_all Recorded.abc (lit ".")
                 [lit "a"; lit "b"; lit "c"; lit "d"]))) 0 = Some rank /\
    percentile rank 3 = Some pct /\
    1 <= rank <= 3 /\ (0 <= pct <= 100)%Q.
Proof.
  exact (rank_and_percentile_bounds Recorded.abc (lit ".")
           [lit "a"; lit "b"; lit "c"; lit "d"] (lit "a") 0 eq_refl).
Defined.

(** C6: for a non-empty depth list the quartiles [main] prints are the
    elements at the positions n/4, n/2 and 3n/4 (rounded down) of the
    list in ascending order, and Q1 <= Q2 <= Q3. *)
Theorem quartiles_ascending :
  forall depths,
    depths <> [] ->
    let s := sorted Z.ltb depths in
    exists q1 q2 q3,
      quartiles s = Some (q1, q2, q3) /\
      nth_error s (length s / 4) = Some q1 /\
      nth_error s (length s / 2) = Some q2 /\
      nth_error s (3 * length s / 4) = Some q3 /\
      q1 <= q2 <= q3 /\
      forall target depth_map td,
        dict_get depth_map target = Some td ->
        In (ReportQuartiles q1 q2 q3)
          (fst (report target depths depth_map)).
Proof.
  intros depths Hne s.
  assert (s <> []) as Hs
    by (intros E; apply Hne; now apply (sorted_nil_inv Z.ltb)).
  destruct (quartiles_some s Hs) as (q1 & q2 & q3 & Hq & H1 & H2 & H3).
  exists q1, q2, q3. split; [exact Hq|].
  rewrite Nat.mul_1_l in H1.
  replace (2 * length s / 4)%nat with (length s / 2)%nat in H2
    by (change 4%nat with (2 * 2)%nat;
        now rewrite Nat.Div0.div_mul_cancel_l).
  split; [exact H1|]. split; [exact H2|]. split; [exact H3|].
  split; [apply (quartiles_ordered s); [apply sorted_Z_sorted | exact Hq]|].
  intros target depth_map td Hg.
  destruct (report_present target depths depth_map td Hne Hg)
    as (_ & _ & a & b & c & Hq' & Hr).
  fold s in Hq'. rewrite Hq in Hq'. injection Hq' as <- <- <-.
  rewrite Hr. cbn [fst]. apply in_or_app. left. simpl. tauto.
Qed.

Lemma quartiles_ascending_witness :
  exists q1 q2 q3,
    quartiles [1; 2; 5; 7; 9] = Some (q1, q2, q3) /\
    nth_error [1; 2; 5; 7; 9] 1 = Some q1 /\
    nth_error [1; 2; 5; 7; 9] 2 = Some q2 /\
    nth_error [1; 2; 5; 7; 9] 3 = Some q3 /\
    q1 <= q2 <= q3.
Proof.
  destruct (quartiles_ascending [7; 2; 9; 1; 5])
    as (q1 & q2 & q3 & Hq & H1 & H2 & H3 & Hle & _); [discriminate|].
  exists q1, q2, q3. auto.
Defined.

(** C10: for a list of n > 0 depths each quartile index int(0.25*n),
    int(0.50*n), int(0.75*n) lies in [0, n), so the three lookups succeed
    on every non-empty list, and no run of [main] ends in [IndexError]. *)
Theorem quartile_lookups_in_range :
  (forall n, 0 < n ->
             0 <= int_quarters 1 n < n /\
             0 <= int_quarters 2 n < n /\
             0 <= int_quarters 3 n < n) /\
  (forall depths : list Z, depths <> [] -> quartiles depths <> None) /\
  (forall run argv, snd (main run argv) <> Raised IndexError).
Proof.
  split; [|split].
  - intros n Hn. repeat split; apply int_quarters_range; lia.
  - intros depths Hne.
    destruct (quartiles_some depths Hne) as (q1 & q2 & q3 & -> & _).
    discriminate.
  - intros run argv. unfold main.
    destruct argv as [|prog [|target rest]]; try discriminate.
    destruct (list_functions run (src_root_arg rest) (file_glob_arg rest))
      as [|f funcs]; [discriminate|].
    set (st := measure_all run (src_root_arg rest) (f :: funcs)).
    destruct (fst st) as [|d ds] eqn:Ed; [discriminate|].
    destruct (dict_get (snd st) target) as [td|] eqn:Eg.
    + destruct (report_present target (d :: ds) (snd st) td)
        as (_ & _ & q1 & q2 & q3 & _ & ->); [discriminate | exact Eg |].
      discriminate.
    + rewrite report_absent; [discriminate | discriminate | exact Eg].
Qed.

Lemma quartile_lookups_in_range_witness :
  (0 <= int_quarters 1 5 < 5 /\
   0 <= int_quarters 2 5 < 5 /\
   0 <= int_quarters 3 5 < 5) /\
  quartiles [1; 2; 5; 7; 9] <> None.
Proof.
  destruct quartile_lookups_in_range as (Hidx & Hq & _).
  split; [apply Hidx; lia | apply Hq; discriminate].
Defined.

(* ------------------------------------------------------------------ *)
(** ** Classification *)

Lemma report_class target depths depth_map td :
  depths <> [] -> dict_get depth_map target = Some td ->
  exists q1 q2 q3,
    quartiles (sorted Z.ltb depths) = Some (q1, q2, q3) /\
    forall c, In (ReportClass c) (fst (report target depths depth_map))
              <-> c = classify td q1 q3.
Proof.
  intros Hne Hg.
  destruct (report_present target depths depth_map td Hne Hg)
    as (_ & _ & q1 & q2 & q3 & Hq & Hr).
  exists q1, q2, q3. split; [exact Hq|].
  intros c. rewrite Hr. cbn [fst]. rewrite in_app_iff. split.
  - intros [H|H].
    + simpl in H.
      repeat (destruct H as [H|H]; [try discriminate|]); [|contradiction].
      congruence.
    + unfold print_top in H. apply in_map_iff in H.
      destruct H as (x & Hx & _). discriminate.
  - intros ->. left. simpl. tauto.
Qed.

(** C2 (as amended): for a non-empty depth list and a target in the depth
    map, a target depth equal to Q3 is classified "deep"; a target depth
    equal to Q1 is classified "shallow" when Q1 is below Q3, and "deep"
    when Q1 equals Q3. *)
Theorem quartile_boundaries :
  forall target depths depth_map td,
    depths <> [] -> dict_get depth_map target = Some td ->
    exists q1 q2 q3 c,
      quartiles (sorted Z.ltb depths) = Some (q1, q2, q3) /\
      (forall c', In (ReportClass c') (fst (report target depths depth_map))
                  <-> c' = c) /\
      q1 <= q3 /\
      (td = q3 -> c = Deep) /\
      (td = q1 -> q1 < q3 -> c = Shallow) /\
      (td = q1 -> q1 = q3 -> c = Deep).
Proof.
  intros target depths depth_map td Hne Hg.
  destruct (report_class target depths depth_map td Hne Hg)
    as (q1 & q2 & q3 & Hq & Hc).
  exists q1, q2, q3, (classify td q1 q3).
  split; [exact Hq|]. split; [exact Hc|].
  assert (q1 <= q2 <= q3) as Hle
    by (eapply quartiles_ordered; [apply sorted_Z_sorted | exact Hq]).
  unfold classify. repeat split; try lia.
  - intros ->. destruct (Z.geb_spec q3 q3); [reflexivity | lia].
  - intros -> Hlt. destruct (Z.geb_spec q1 q3); [lia|].
    destruct (Z.leb_spec q1 q1); [reflexivity | lia].
  - intros -> ->. destruct (Z.geb_spec q3 q3); [reflexivity | lia].
Qed.

(** The depths 0, 2, 4 with a target at Q1 = 0 and with a target at
    Q3 = 4. *)
Lemma quartile_boundaries_witness :
  In (ReportClass Shallow)
    (fst (report (lit "a") [0; 2; 4]
            [(lit "a", 0); (lit "b", 2); (lit "c", 4)])) /\
  In (ReportClass Deep)
    (fst (report (lit "c") [0; 2; 4]
            [(lit "a", 0); (lit "b", 2); (lit "c", 4)])).
Proof.
  split.
  - destruct (quartile_boundaries (lit "a") [0; 2; 4]
                [(lit "a", 0); (lit "b", 2); (lit "c", 4)] 0)
      as (q1 & q2 & q3 & c & Hq & Hc & _ & _ & Hs & _);
      [discriminate | reflexivity |].
    injection Hq as <- <- <-.
    apply Hc. symmetry. apply Hs; [reflexivity | lia].
  - destruct (quartile_boundaries (lit "c") [0; 2; 4]
                [(lit "a", 0); (lit "b", 2); (lit "c", 4)] 4)
      as (q1 & q2 & q3 & c & Hq & Hc & _ & Hd & _);
      [discriminate | reflexivity |].
    injection Hq as <- <- <-.
    apply Hc. symmetry. apply Hd. reflexivity.
Defined.

(** C2 as stated fails when all depths are equal: in [Recorded.flat] the
    three functions have depth 1, so Q1 = Q3 = 1, and the target [a] at
    depth 1 = Q1 is reported as "deep", not as "shallow". *)
Lemma equal_depths_classified_deep :
  main Recorded.flat [lit "prog"; lit "a"]
  = ([ReportHeader; ReportTarget (lit "a"); ReportDepth 1;
      ReportPosition (0 # 3) (300 # 3); ReportCount 3; Blank;
      ReportQuartiles 1 1 1; ReportClass Deep; TopHeader;
      TopEntry 1 (lit "a"); TopEntry 1 (lit "b"); TopEntry 1 (lit "c")],
     Returned) /\
  classify 1 1 1 <> Shallow.
Proof. split; [vm_compute; reflexivity | discriminate]. Qed.

(* ------------------------------------------------------------------ *)
(** ** The top-20 list *)

Lemma StronglySorted_app {A} (R : A -> A -> Prop) l1 l2 :
  StronglySorted R (l1 ++ l2) ->
  StronglySorted R l1 /\ StronglySorted R l2 /\
  Forall (fun b => Forall (fun a => R a b) l1) l2.
Proof.
  induction l1 as [|x l1 IH]; simpl; intros H.
  - repeat split; [constructor | exact H|].
    apply Forall_forall. intros b _. constructor.
  - inversion H as [|? ? Hs Hall]; subst.
    destruct (IH Hs) as (H1 & H2 & H3).
    apply Forall_app in Hall. destruct Hall as [Ha1 Ha2].
    repeat split; [now constructor | exact H2|].
    rewrite Forall_forall in *. intros b Hb.
    constructor; [now apply Ha2 | now apply H3].
Qed.

Lemma sorted_top_sorted l : StronglySorted top_order (sorted top_ltb l).
Proof.
  apply (StronglySorted_impl (precedes top_ltb)).
  - intros a b. apply precedes_top.
  - apply sorted_sorted; [apply top_ltb_asym | apply precedes_top_trans].
Qed.

(** The sorted items are the one arrangement of the items in the order
    [top_order], whatever the sorting algorithm. *)
Lemma sort_items_unique (depth_map : dict Z) s :
  Permutation s (items depth_map) -> StronglySorted top_order s ->
  s = sorted top_ltb (items depth_map).
Proof.
  intros Hp Hs. apply (sorted_unique top_order).
  - apply top_order_antisym.
  - rewrite Hp. symmetry. apply sorted_perm.
  - exact Hs.
  - apply sorted_top_sorted.
Qed.

Lemma print_top_entries top d name :
  In (TopEntry d name) (print_top top) <-> In (name, d) top.
Proof.
  unfold print_top. rewrite in_map_iff. split.
  - intros ([n e] & H & Hin). simpl in H. now injection H as -> ->.
  - intros H. exists (name, d). now split.
Qed.

(** C8: the top-20 list is in descending order of depth, entries of equal
    depth in ascending order of name; it has min(20, size of the depth
    map) entries, which are entries of the depth map that precede all the
    entries left out; it is what both the fallback report and the full
    report print as their entries; and for a depth map built by the
    measuring loop over distinct functions the size is the number of
    measured depths. *)
Theorem top20_sorted_and_bounded :
  forall depth_map,
    let top := top20 depth_map in
    StronglySorted top_order top /\
    (length top <= 20)%nat /\
    length top = Nat.min 20 (length (items depth_map)) /\
    (exists rest,
        Permutation (top ++ rest) (items depth_map) /\
        Forall (fun r => Forall (fun t => top_order t r) top) rest) /\
    (forall target depths,
        depths <> [] ->
        exists head,
          fst (report target depths depth_map) = head ++ print_top top /\
          forall d name, ~ In (TopEntry d name) head) /\
    (forall run src_root funcs,
        NoDup funcs ->
        depth_map = snd (measure_all run src_root funcs) ->
        length top
        = Nat.min 20 (length (fst (measure_all run src_root funcs)))).
Proof.
  intros depth_map top.
  pose proof (sorted_top_sorted (items depth_map)) as Hs.
  rewrite <- (firstn_skipn 20 (sorted top_ltb (items depth_map))) in Hs.
  apply StronglySorted_app in Hs. destruct Hs as (Htop & _ & Hrest).
  assert (length top = Nat.min 20 (length (items depth_map))) as Hlen
    by (unfold top, top20; now rewrite length_firstn, sorted_length).
  split; [exact Htop|]. split; [lia|]. split; [exact Hlen|].
  split; [|split].
  3: { intros run src_root funcs Hnd E. rewrite Hlen, E.
       now rewrite measure_all_size. }
  - exists (skipn 20 (sorted top_ltb (items depth_map))).
    split; [|exact Hrest].
    unfold top, top20. rewrite firstn_skipn. apply sorted_perm.
  - intros target depths Hne.
    destruct (dict_get depth_map target) as [td|] eqn:Eg.
    + destruct (report_present target depths depth_map td Hne Eg)
        as (_ & _ & q1 & q2 & q3 & _ & ->).
      eexists. split; [reflexivity|].
      intros d name H. simpl in H.
      repeat (destruct H as [H|H]; [discriminate|]). contradiction.
    + rewrite (report_absent target depths depth_map Hne Eg).
      eexists. split; [reflexivity|].
      intros d name H. simpl in H.
      repeat (destruct H as [H|H]; [discriminate|]). contradiction.
Qed.

(** The 22 functions of [Recorded.many]: 20 entries are printed, the
    deepest first. *)
Lemma top20_sorted_and_bounded_witness :
  let depth_map := snd (measure_all Recorded.many (lit ".")
                          Recorded.many_names) in
  length (items depth_map) = 22%nat /\
  length (top20 depth_map) = 20%nat /\
  StronglySorted top_order (top20 depth_map) /\
  firstn 3 (print_top (top20 depth_map))
  = [TopEntry 2 (lit "c"); TopEntry 2 (lit "f"); TopEntry 2 (lit "i")].
Proof.
  intros depth_map.
  destruct (top20_sorted_and_bounded depth_map) as (Hs & _ & Hlen & _).
  split; [reflexivity|]. split; [rewrite Hlen; reflexivity|].
  split; [exact Hs | reflexivity].
Defined.

(* ------------------------------------------------------------------ *)
(** ** Exit codes *)

(** C5: [main] exits with 1 after printing the usage text when the target
    argument is missing, with 2 when the enumerator returns no function,
    with 3 when no function could be measured, with 4 after the fallback
    top-20 report when the target is not in the depth map, and returns
    (exit status 0) after the full report otherwise. *)
Theorem exit_codes :
  forall run,
    (forall argv, (length argv < 2)%nat ->
                  main run argv = ([Usage], SysExit 1)) /\
    (forall prog target rest,
        let src_root := src_root_arg rest in
        let funcs := list_functions run src_root (file_glob_arg rest) in
        let st := measure_all run src_root funcs in
        let result := main run (prog :: target :: rest) in
        (funcs = [] -> result = ([NoFunctionsFound], SysExit 2)) /\
        (funcs <> [] ->
         (forall f, In f funcs -> max_call_depth_for run f src_root = None) ->
         result = ([NoDepthsMeasured], SysExit 3)) /\
        (funcs <> [] ->
         (exists f d, In f funcs /\
                      max_call_depth_for run f src_root = Some d) ->
         dict_get (snd st) target = None ->
         result = ([TargetNotMeasured target; FallbackTopHeader]
                     ++ print_top (top20 (snd st)), SysExit 4)) /\
        (forall td,
            dict_get (snd st) target = Some td ->
            exists top pct q1 q2 q3 c,
              result
              = ([ReportHeader; ReportTarget target; ReportDepth td;
                  ReportPosition top pct; ReportCount (len (fst st)); Blank;
                  ReportQuartiles q1 q2 q3; ReportClass c; TopHeader]
                   ++ print_top (top20 (snd st)), Returned) /\
              exit_code (snd result) = 0)).
Proof.
  intros run. split.
  - intros [|prog [|target rest]] H; simpl in H; try reflexivity. lia.
  - intros prog target rest src_root funcs st result.
    assert (funcs <> [] -> result = report target (fst st) (snd st)) as Hrep.
    { intros Hne. unfold result, main. fold src_root funcs.
      destruct funcs eqn:E; [congruence | reflexivity]. }
    split; [|split; [|split]].
    + intros E. unfold result, main. fold src_root funcs. now rewrite E.
    + intros Hne Hnone. rewrite (Hrep Hne).
      unfold st. rewrite measure_all_depths.
      apply measured_nil in Hnone. now rewrite Hnone.
    + intros Hne (f & d & Hin & Hm) Hg. rewrite (Hrep Hne).
      apply report_absent; [|exact Hg].
      unfold st. rewrite measure_all_depths. intros E.
      rewrite (measured_nil (fun f => max_call_depth_for run f src_root))
        in E.
      rewrite (E f Hin) in Hm. discriminate.
    + intros td Hg.
      assert (funcs <> []) as Hne.
      { apply measure_all_get in Hg. destruct Hg as [Hin _].
        intros E. rewrite E in Hin. contradiction. }
      assert (fst st <> []) as Hd.
      { apply measure_all_value_in in Hg. intros E. fold st in Hg.
        rewrite E in Hg. contradiction. }
      destruct (report_present target (fst st) (snd st) td Hd Hg)
        as (_ & _ & q1 & q2 & q3 & _ & Hr).
      rewrite len_sorted in Hr. rewrite (Hrep Hne), Hr.
      eexists _, _, q1, q2, q3, _. split; reflexivity.
Qed.

(** The five ways a run on recorded outputs ends. *)
Lemma exit_codes_witness :
  main Recorded.abc [lit "prog"] = ([Usage], SysExit 1) /\
  main Recorded.silent [lit "prog"; lit "a"]
  = ([NoFunctionsFound], SysExit 2) /\
  main Recorded.treeless [lit "prog"; lit "a"]
  = ([NoDepthsMeasured], SysExit 3) /\
  main Recorded.abc [lit "prog"; lit "d"]
  = ([TargetNotMeasured (lit "d"); FallbackTopHeader;
      TopEntry 4 (lit "c"); TopEntry 2 (lit "b"); TopEntry 0 (lit "a")],
     SysExit 4) /\
  exit_code (snd (main Recorded.abc [lit "prog"; lit "b"])) = 0.
Proof.
  destruct (exit_codes Recorded.abc) as [Husage Habc].
  destruct (Habc (lit "prog") (lit "d") []) as (_ & _ & Hfour & _).
  destruct (Habc (lit "prog") (lit "b") []) as (_ & _ & _ & Hzero).
  destruct (Hzero 2 eq_refl) as (top & pct & q1 & q2 & q3 & c & _ & Hcode).
  destruct (exit_codes Recorded.silent) as [_ Hsilent].
  destruct (Hsilent (lit "prog") (lit "a") []) as (Htwo & _).
  destruct (exit_codes Recorded.treeless) as [_ Htreeless].
  destruct (Htreeless (lit "prog") (lit "a") []) as (_ & Hthree & _).
  split; [apply Husage; simpl; lia|].
  split; [apply Htwo; reflexivity|].
  split.
  { apply Hthree; [discriminate|].
    intros f [<-|[]]. reflexivity. }
  split; [|exact Hcode].
  rewrite Hfour; [reflexivity | discriminate | | reflexivity].
  exists (lit "a"), 0. split; [now left | reflexivity].
Defined.

(* ------------------------------------------------------------------ *)
(** ** Further properties: tool output formats *)

(** A line of a call tree as the call-graph tool prints it (the comment at
    line 44: the tree is shown by indentation, two columns a level): the
    node [snd node] at nesting level [fst node]. *)
Definition render_node (node : nat * str) : str :=
  repeat SP (2 * fst node) ++ snd node.

(** A line of the symbol extractor (the comment at line 36): the name, a
    space, and the rest of the description. *)
Definition render_symbol (entry : str * str) : str :=
  fst entry ++ SP :: snd entry.

(** No character of [l] is a line boundary. *)
Definition one_line (l : str) : Prop :=
  Forall (fun c => islinebreak c = false) l.

(** [l] has a character that is not whitespace. *)
Definition visible (l : str) : Prop :=
  exists c, In c l /\ isspace c = false.

(** [l] does not begin with a space. *)
Definition unindented (l : str) : Prop :=
  match l with [] => True | c :: _ => c <> SP end.

Lemma splitlines_from_line l rest :
  one_line l ->
  forall cur,
    splitlines_from cur (l ++ LF :: rest)
    = (rev cur ++ l) :: splitlines_from [] rest.
Proof.
  induction 1 as [|c l Hc _ IH]; intros cur.
  - rewrite app_nil_r. simpl. destruct rest; reflexivity.
  - simpl. rewrite Hc, IH. simpl. now rewrite <- app_assoc.
Qed.

(** Reading back lines that were written one per line. *)
Lemma splitlines_unlines ls :
  Forall one_line ls -> splitlines (Recorded.unlines ls) = ls.
Proof.
  unfold splitlines, Recorded.unlines.
  induction 1 as [|l ls Hl _ IH]; [reflexivity|].
  simpl. rewrite <- app_assoc. simpl.
  rewrite splitlines_from_line by exact Hl. now rewrite IH.
Qed.

Lemma visible_not_blank l s : visible l -> ~ blank (l ++ s).
Proof.
  intros (c & Hin & Hc) Hb. unfold blank in Hb.
  rewrite Forall_forall in Hb.
  rewrite (Hb c) in Hc by (apply in_or_app; now left). discriminate.
Qed.

Lemma leading_spaces_indent n l :
  unindented l -> leading_spaces (repeat SP n ++ l) = n.
Proof.
  intros Hl. induction n as [|n IH]; simpl.
  - destruct l as [|c l']; [reflexivity|]. simpl in Hl.
    cbn [leading_spaces].
    destruct (N.eqb_spec c SP); [contradiction | reflexivity].
  - now rewrite IH.
Qed.

Lemma depth_of_rendered_node node :
  unindented (snd node) -> depth_of_line (render_node node) = Z.of_nat (fst node).
Proof.
  intros Hn. unfold depth_of_line, render_node.
  rewrite leading_count, leading_spaces_indent by exact Hn.
  rewrite Nat2Z.inj_mul, Z.mul_comm. apply Z.div_mul. lia.
Qed.

Lemma one_line_indent n l : one_line l -> one_line (repeat SP n ++ l).
Proof.
  intros Hl. apply Forall_app. split; [|exact Hl].
  apply Forall_forall. intros c Hc. apply repeat_spec in Hc. now subst.
Qed.

(** X1: when the call-graph tool prints a tree with one node per line and
    two spaces of indentation per level, under a root line that has a
    visible character, the measured depth is the deepest level of a node
    (0 for a root without nodes). *)
Theorem rendered_tree_depth :
  forall run func src_root root nodes,
    run (cflow_cmd func src_root) (Some src_root)
    = Recorded.unlines (root :: map render_node nodes) ->
    visible root -> one_line root ->
    Forall (fun node => one_line (snd node) /\ unindented (snd node)) nodes ->
    max_call_depth_for run func src_root
    = Some (max_depth (map (fun node => Z.of_nat (fst node)) nodes)).
Proof.
  intros run func src_root root nodes Hout Hvis Hroot Hnodes.
  unfold max_call_depth_for. rewrite Hout.
  rewrite (depth_of_output_lines _ root (map render_node nodes)).
  - f_equal. f_equal. rewrite map_map. apply map_ext_in.
    intros node Hin. apply depth_of_rendered_node.
    rewrite Forall_forall in Hnodes. now apply Hnodes.
  - unfold Recorded.unlines. simpl. rewrite <- app_assoc.
    now apply visible_not_blank.
  - apply splitlines_unlines. constructor; [exact Hroot|].
    apply Forall_forall. intros l Hl. apply in_map_iff in Hl.
    destruct Hl as (node & <- & Hin).
    rewrite Forall_forall in Hnodes.
    apply one_line_indent. now apply Hnodes.
Qed.

Lemma lit_one_line_dec l :
  forallb (fun c => negb (islinebreak c)) l = true -> one_line l.
Proof.
  intros H. apply Forall_forall. intros c Hc.
  rewrite forallb_forall in H. apply H in Hc.
  now destruct (islinebreak c).
Qed.

(** The tree of [c] in [Recorded.abc]: levels 1, 2, 3, 4 and 1. *)
Lemma rendered_tree_depth_witness :
  max_call_depth_for Recorded.abc (lit "c") (lit ".") = Some 4.
Proof.
  apply (rendered_tree_depth Recorded.abc (lit "c") (lit ".") (lit "c()")
           [(1%nat, lit "x()"); (2%nat, lit "y()"); (3%nat, lit "y()");
            (4%nat, lit "y()"); (1%nat, lit "z()")]).
  - reflexivity.
  - exists 99%N. split; [now left | reflexivity].
  - apply lit_one_line_dec. reflexivity.
  - repeat constructor; try (apply lit_one_line_dec; reflexivity);
      simpl; discriminate.
Defined.

Lemma islinebreak_isspace c : islinebreak c = true -> isspace c = true.
Proof.
  unfold islinebreak, isspace, in_range.
  rewrite !orb_true_iff, !andb_true_iff, !N.leb_le, !N.eqb_eq. lia.
Qed.

Lemma word_one_line w : Forall (fun c => isspace c = false) w -> one_line w.
Proof.
  apply Forall_impl. intros c Hc.
  destruct (islinebreak c) eqn:E; [|reflexivity].
  apply islinebreak_isspace in E. congruence.
Qed.

Lemma split_rendered_symbol entry :
  fst entry <> [] -> Forall (fun c => isspace c = false) (fst entry) ->
  exists more, split (render_symbol entry) = fst entry :: more.
Proof.
  intros Hne Hw. apply split_first_token.
  exists [], (SP :: snd entry). repeat split; [constructor | assumption..].
Qed.

Lemma funcs_loop_rendered entries :
  Forall (fun e => fst e <> [] /\
                   Forall (fun c => isspace c = false) (fst e)) entries ->
  fold_left funcs_step (map render_symbol entries) [] = map fst entries.
Proof.
  intros H. rewrite funcs_loop. simpl.
  induction H as [|e entries [Hne Hw] _ IH]; [reflexivity|].
  simpl. destruct (split_rendered_symbol e Hne Hw) as [more ->].
  simpl. now rewrite IH.
Qed.

(** X2: when files are found and the symbol extractor prints one symbol
    per line, each line a name (not empty, without whitespace) followed by
    a space and a description, the enumerator returns the names, each
    once, in ascending order. *)
Theorem symbol_listing_names :
  forall run src_root file_glob entries,
    list_files run src_root file_glob <> [] ->
    run (ctags_cmd (list_files run src_root file_glob)) None
    = Recorded.unlines (map render_symbol entries) ->
    Forall (fun e => fst e <> [] /\
                     Forall (fun c => isspace c = false) (fst e) /\
                     one_line (snd e)) entries ->
    list_functions run src_root file_glob
    = sorted ltb (set_of (map fst entries)) /\
    forall name, In name (list_functions run src_root file_glob)
                 <-> In name (map fst entries).
Proof.
  intros run src_root file_glob entries Hfiles Hout Hentries.
  assert (list_functions run src_root file_glob
          = sorted ltb (set_of (map fst entries))) as E.
  { unfold list_functions.
    destruct (list_files run src_root file_glob) as [|f fs] eqn:Ef;
      [congruence|].
    rewrite Hout. unfold funcs_of_output.
    rewrite splitlines_unlines.
    - rewrite funcs_loop_rendered; [reflexivity|].
      eapply Forall_impl; [|exact Hentries].
      intros e (H1 & H2 & _). now split.
    - apply Forall_forall. intros l Hl. apply in_map_iff in Hl.
      destruct Hl as (e & <- & Hin).
      rewrite Forall_forall in Hentries.
      destruct (Hentries e Hin) as (_ & Hw & Hd).
      apply Forall_app. split; [now apply word_one_line|].
      constructor; [reflexivity | exact Hd]. }
  split; [exact E|].
  intros name. rewrite E, sorted_in. unfold set_of. apply nodup_In.
Qed.

(** The five symbol lines of [Recorded.abc]. *)
Lemma symbol_listing_names_witness :
  list_functions Recorded.abc (lit ".") (lit "\.c$")
  = sorted ltb (set_of [lit "b"; lit "a"; lit "c"; lit "b"; lit "d"]).
Proof.
  refine (proj1 (symbol_listing_names Recorded.abc (lit ".") (lit "\.c$")
                   [(lit "b", lit "  function  3 a.c  int b()");
                    (lit "a", lit "  function  1 a.c  int a()");
                    (lit "c", lit "  function  9 b.c  int c()");
                    (lit "b", lit "  function  1 b.c  int b()");
                    (lit "d", lit "  function  5 b.c  int d()")] _ _ _)).
  - vm_compute. discriminate.
  - vm_compute. reflexivity.
  - repeat constructor; try discriminate;
      apply lit_one_line_dec; reflexivity.
Defined.

Lemma splitlines_from_one_line s :
  forall cur, one_line cur -> Forall one_line (splitlines_from cur s).
Proof.
  induction s as [|c rest IH]; intros cur Hcur; simpl.
  - destruct cur; constructor; [|constructor].
    apply Forall_rev. exact Hcur.
  - destruct (islinebreak c) eqn:Ec.
    + constructor; [apply Forall_rev; exact Hcur|].
      destruct rest as [|c2 rest']; [constructor|].
      destruct ((c =? CR) && (c2 =? LF))%N eqn:Ep;
        [|apply IH; constructor].
      apply andb_true_iff in Ep. destruct Ep as [_ E2].
      apply N.eqb_eq in E2. subst c2.
      specialize (IH [] (Forall_nil _)). simpl in IH.
      inversion IH as [|? ? _ Htl]; subst.
      destruct rest'; exact Htl.
    + apply IH. constructor; [exact Ec | exact Hcur].
Qed.

(** X3: the files come from the version-control listing whenever it has a
    visible character, and from the filesystem search otherwise; no file
    is found exactly when both listings are empty or whitespace-only; and
    no file name holds a line boundary. *)
Theorem file_listing_fallback :
  forall run src_root file_glob,
    let tracked := run (git_ls_cmd src_root file_glob) None in
    let found := run (find_cmd src_root) None in
    let files := list_files run src_root file_glob in
    (~ blank tracked -> files = splitlines (strip tracked) /\ files <> []) /\
    (blank tracked -> files = splitlines (strip found)) /\
    (files = [] <-> blank tracked /\ blank found) /\
    Forall one_line files.
Proof.
  intros run src_root file_glob tracked found files.
  assert (forall s, splitlines (strip s) = [] <-> blank s) as Hnil
    by (intros s; rewrite splitlines_nil; apply strip_nil_iff).
  assert (blank tracked -> files = splitlines (strip found)) as Hb.
  { intros H. unfold files, list_files. fold tracked found.
    apply Hnil in H. now rewrite H. }
  assert (~ blank tracked ->
          files = splitlines (strip tracked) /\ files <> []) as Hn.
  { intros H. unfold files, list_files. fold tracked found.
    destruct (splitlines (strip tracked)) eqn:E.
    - apply Hnil in E. contradiction.
    - split; [reflexivity | discriminate]. }
  split; [exact Hn|]. split; [exact Hb|]. split.
  - destruct (blank_dec tracked) as [Ht|Ht].
    + rewrite (Hb Ht), Hnil. tauto.
    + destruct (Hn Ht) as [_ Hne]. tauto.
  - destruct (blank_dec tracked) as [Ht|Ht].
    + rewrite (Hb Ht). apply splitlines_from_one_line. constructor.
    + destruct (Hn Ht) as [-> _]. apply splitlines_from_one_line. constructor.
Qed.

(** In [Recorded.abc] the version-control listing names two files. *)
Lemma file_listing_fallback_witness :
  list_files Recorded.abc (lit ".") (lit "\.c$") = [lit "a.c"; lit "b.c"] /\
  list_files Recorded.abc (lit ".") (lit "\.c$") <> [].
Proof.
  destruct (file_listing_fallback Recorded.abc (lit ".") (lit "\.c$"))
    as (Hn & _).
  destruct Hn as [E Hne].
  - intros H. apply strip_nil_iff in H. vm_compute in H. discriminate.
  - split; [rewrite E; reflexivity | exact Hne].
Defined.

(* ------------------------------------------------------------------ *)
(** ** Further properties: rank, percentile and classification *)

Lemma count_le_splits s x :
  StronglySorted Z.le s -> splits s x (count_le x s) (count_le x s).
Proof.
  intros Hs.
  destruct (bisect_right_loop_splits s x Hs _ 0 (len s) eq_refl)
    as (r & Hr & _ & Hsp).
  - unfold len. lia.
  - lia.
  - split; [intros; lia|].
    intros i v Hi Hge.
    assert (nth_error s i <> None) as Hn by congruence.
    apply nth_error_Some in Hn. unfold len in Hge. lia.
  - pose proof (bisect_right_count s x Hs) as Hc.
    unfold bisect_right in Hc. rewrite Hr in Hc.
    injection Hc as <-. exact Hsp.
Qed.

(** In a sorted list an element at most [x] at position [i] puts more than
    [i] elements at or below [x]; an element above [x] at most [i]. *)
Lemma count_le_above_index s x i q :
  StronglySorted Z.le s -> nth_error s i = Some q -> q <= x ->
  Z.of_nat i < count_le x s.
Proof.
  intros Hs Hi Hq. destruct (count_le_splits s x Hs) as [_ Hhi].
  destruct (Z.lt_ge_cases (Z.of_nat i) (count_le x s)) as [H|H];
    [exact H|].
  specialize (Hhi i q Hi H). lia.
Qed.

Lemma count_le_below_index s x i q :
  StronglySorted Z.le s -> nth_error s i = Some q -> x < q ->
  count_le x s <= Z.of_nat i.
Proof.
  intros Hs Hi Hq. destruct (count_le_splits s x Hs) as [Hlo _].
  destruct (Z.lt_ge_cases (Z.of_nat i) (count_le x s)) as [H|H];
    [|exact H].
  specialize (Hlo i q Hi H). lia.
Qed.

Lemma count_le_mono l x y : x <= y -> count_le x l <= count_le y l.
Proof.
  intros Hxy. unfold count_le, len. apply Nat2Z.inj_le.
  induction l as [|d l IH]; simpl; [lia|].
  destruct (Z.leb_spec d x), (Z.leb_spec d y); simpl; lia.
Qed.

Lemma count_le_strict l x y :
  x < y -> In y l -> count_le x l < count_le y l.
Proof.
  intros Hxy Hin. unfold count_le, len. apply Nat2Z.inj_lt.
  induction l as [|d l IH]; simpl; [contradiction|].
  assert (Z.of_nat (length (filter (fun d => d <=? x) l))
          <= Z.of_nat (length (filter (fun d => d <=? y) l))) as Hle
    by (apply (count_le_mono l x y); lia).
  destruct Hin as [->|Hin].
  - destruct (Z.leb_spec y x), (Z.leb_spec y y); simpl; lia.
  - specialize (IH Hin).
    destruct (Z.leb_spec d x), (Z.leb_spec d y); simpl; lia.
Qed.

Lemma count_le_all l x :
  count_le x l = len l <-> (forall d, In d l -> d <= x).
Proof.
  unfold count_le, len. induction l as [|d l IH]; cbn [filter length In].
  - split; [contradiction | reflexivity].
  - pose proof (filter_length_le (fun d => d <=? x) l) as Hle.
    destruct (Z.leb_spec d x) as [Hd|Hd]; cbn [length].
    + rewrite !Nat2Z.inj_succ. split.
      * intros H e [<-|He]; [assumption|]. apply IH; [lia | exact He].
      * intros H. f_equal. apply IH. intros e He. apply H. now right.
    + split; [lia|]. intros H. specialize (H d (or_introl eq_refl)). lia.
Qed.

(** The percentile against a threshold of [k] percent, in integers. *)
Lemma percentile_above k rank n pct :
  0 < n -> percentile rank n = Some pct ->
  (inject_Z k < pct)%Q <-> k * n < 100 * rank.
Proof.
  intros Hn. unfold percentile.
  destruct (Z.eqb_spec n 0) as [|_]; [lia|].
  intros H. injection H as <-.
  destruct n as [|p|p]; try lia.
  unfold Qlt, Qdiv, Qmult, Qinv, inject_Z; cbn -[Z.mul Pos.mul].
  split; nia.
Qed.

Lemma percentile_le_iff rank n pct rank' pct' :
  0 < n -> percentile rank n = Some pct -> percentile rank' n = Some pct' ->
  ((pct <= pct')%Q <-> rank <= rank') /\ ((pct < pct')%Q <-> rank < rank').
Proof.
  intros Hn. unfold percentile.
  destruct (Z.eqb_spec n 0) as [|_]; [lia|].
  intros H H'. injection H as <-. injection H' as <-.
  destruct n as [|p|p]; try lia.
  unfold Qle, Qlt, Qdiv, Qmult, Qinv, inject_Z; cbn -[Z.mul Pos.mul].
  split; split; nia.
Qed.

Lemma len_pos_nonempty {A} (l : list A) : l <> [] -> 0 < len l.
Proof. unfold len. destruct l; [congruence | simpl length; lia]. Qed.

(** X4: the interpretation printed in the full report agrees with the
    percentile printed above it: it is "deep" exactly when the percentile
    is above 75; "mid-range" only for a percentile above 25 and at most
    75; "shallow" only for a percentile of at most 75. *)
Theorem classification_agrees_with_percentile :
  forall target depths depth_map td,
    depths <> [] -> dict_get depth_map target = Some td ->
    exists pct q1 q2 q3 n,
      report target depths depth_map
      = ([ReportHeader; ReportTarget target; ReportDepth td;
          ReportPosition (100 - pct)%Q pct; ReportCount n; Blank;
          ReportQuartiles q1 q2 q3; ReportClass (classify td q1 q3);
          TopHeader] ++ print_top (top20 depth_map), Returned) /\
      (classify td q1 q3 = Deep <-> (75 < pct)%Q) /\
      (classify td q1 q3 = MidRange -> (25 < pct)%Q /\ (pct <= 75)%Q) /\
      (classify td q1 q3 = Shallow -> (pct <= 75)%Q).
Proof.
  intros target depths depth_map td Hne Hg.
  destruct (report_present target depths depth_map td Hne Hg)
    as (_ & Hp & q1 & q2 & q3 & Hq & Hr).
  set (s := sorted Z.ltb depths) in *.
  set (rank := count_le td s) in *.
  set (pct := (100 * inject_Z rank / inject_Z (len s))%Q) in *.
  assert (s <> []) as Hs
    by (intros E; apply Hne; now apply (sorted_nil_inv Z.ltb)).
  pose proof (len_pos_nonempty s Hs) as Hn.
  pose proof (sorted_Z_sorted depths) as Hsorted. fold s in Hsorted.
  destruct (quartiles_some s Hs) as (a & b & c & Hq' & H1 & _ & H3).
  rewrite Hq in Hq'. injection Hq' as <- <- <-.
  pose proof (percentile_above 75 rank (len s) pct Hn Hp) as H75.
  pose proof (percentile_above 25 rank (len s) pct Hn Hp) as H25.
  change (inject_Z 75) with 75%Q in H75.
  change (inject_Z 25) with 25%Q in H25.
  pose proof (Nat.mul_succ_div_gt (3 * length s) 4 ltac:(lia)) as G3.
  pose proof (Nat.Div0.mul_div_le (3 * length s) 4) as L3.
  pose proof (Nat.mul_succ_div_gt (1 * length s) 4 ltac:(lia)) as G1.
  assert (q3 <= td -> (75 < pct)%Q) as Hdeep.
  { intros Hle. apply H75.
    pose proof (count_le_above_index s td _ q3 Hsorted H3 Hle) as Hi.
    fold rank in Hi. unfold len. lia. }
  assert (td < q3 -> (pct <= 75)%Q) as Hnot.
  { intros Hlt. apply Qnot_lt_le. rewrite H75.
    pose proof (count_le_below_index s td _ q3 Hsorted H3 Hlt) as Hi.
    fold rank in Hi. unfold len. lia. }
  assert (q1 < td -> (25 < pct)%Q) as Hmid.
  { intros Hlt. apply H25.
    pose proof (count_le_above_index s td _ q1 Hsorted H1 ltac:(lia)) as Hi.
    fold rank in Hi. unfold len. lia. }
  exists pct, q1, q2, q3, (len s). split; [exact Hr|].
  unfold classify.
  destruct (Z.geb_spec td q3) as [Hge|Hlt].
  - repeat split; try discriminate; intros; apply Hdeep; lia.
  - destruct (Z.leb_spec td q1) as [Hle|Hgt].
    + repeat split; try discriminate.
      * intros H. exfalso. apply (Qlt_not_le _ _ H). apply Hnot. lia.
      * intros _. apply Hnot. lia.
    + repeat split; try discriminate.
      * intros H. exfalso. apply (Qlt_not_le _ _ H). apply Hnot. lia.
      * apply Hmid. lia.
      * apply Hnot. lia.
Qed.

(** The target [c] of [Recorded.abc], the deepest of three functions. *)
Lemma classification_agrees_with_percentile_witness :
  exists pct,
    In (ReportPosition (100 - pct)%Q pct)
      (fst (report (lit "c") [0; 2; 4]
              [(lit "a", 0); (lit "b", 2); (lit "c", 4)])) /\
    In (ReportClass Deep)
      (fst (report (lit "c") [0; 2; 4]
              [(lit "a", 0); (lit "b", 2); (lit "c", 4)])) /\
    (75 < pct)%Q.
Proof.
  destruct (classification_agrees_with_percentile (lit "c") [0; 2; 4]
              [(lit "a", 0); (lit "b", 2); (lit "c", 4)] 4)
    as (pct & q1 & q2 & q3 & n & Hr & Hdeep & _);
    [discriminate | reflexivity |].
  exists pct.
  assert (report (lit "c") [0; 2; 4]
            [(lit "a", 0); (lit "b", 2); (lit "c", 4)]
          = ([ReportHeader; ReportTarget (lit "c"); ReportDepth 4;
              ReportPosition (0 # 3) (300 # 3); ReportCount 3; Blank;
              ReportQuartiles 0 2 4; ReportClass Deep; TopHeader;
              TopEntry 4 (lit "c"); TopEntry 2 (lit "b");
              TopEntry 0 (lit "a")], Returned)) as Hv
    by (vm_compute; reflexivity).
  assert (classify 4 q1 q3 = Deep) as Hc
    by (rewrite Hv in Hr; cbn [app] in Hr; congruence).
  rewrite Hr, Hc. cbn [fst].
  split; [simpl; tauto|]. split; [simpl; tauto|].
  apply Hdeep, Hc.
Defined.

Lemma percentile_full rank n pct :
  0 < n -> percentile rank n = Some pct -> (pct == 100)%Q <-> rank = n.
Proof.
  intros Hn. unfold percentile.
  destruct (Z.eqb_spec n 0) as [|_]; [lia|].
  intros H. injection H as <-.
  destruct n as [|p|p]; try lia.
  unfold Qeq, Qdiv, Qmult, Qinv, inject_Z; cbn -[Z.mul Pos.mul].
  split; nia.
Qed.

(** X5: the full report shows a percentile of 100 exactly when no measured
    depth is above the target's, and such a target is always interpreted
    as "deep". *)
Theorem deepest_target_tops_the_ranking :
  forall target depths depth_map td,
    depths <> [] -> dict_get depth_map target = Some td ->
    exists pct q1 q2 q3 n,
      report target depths depth_map
      = ([ReportHeader; ReportTarget target; ReportDepth td;
          ReportPosition (100 - pct)%Q pct; ReportCount n; Blank;
          ReportQuartiles q1 q2 q3; ReportClass (classify td q1 q3);
          TopHeader] ++ print_top (top20 depth_map), Returned) /\
      ((pct == 100)%Q <-> forall d, In d depths -> d <= td) /\
      ((forall d, In d depths -> d <= td) -> classify td q1 q3 = Deep).
Proof.
  intros target depths depth_map td Hne Hg.
  destruct (report_present target depths depth_map td Hne Hg)
    as (_ & Hp & q1 & q2 & q3 & Hq & Hr).
  assert (sorted Z.ltb depths <> []) as Hs
    by (intros E; apply Hne; now apply (sorted_nil_inv Z.ltb)).
  pose proof (len_pos_nonempty _ Hs) as Hn.
  eexists _, q1, q2, q3, _. split; [exact Hr|]. split.
  - rewrite (percentile_full _ _ _ Hn Hp), count_le_all.
    split; intros H d Hd; apply H; apply (sorted_in Z.ltb); exact Hd.
  - intros Hall.
    destruct (quartiles_some _ Hs) as (a & b & c & Hq' & _ & _ & H3).
    rewrite Hq in Hq'. injection Hq' as <- <- <-.
    apply nth_error_In in H3.
    apply (proj1 (sorted_in Z.ltb _ _)) in H3. apply Hall in H3.
    unfold classify. destruct (Z.geb_spec td q3); [reflexivity | lia].
Qed.

Lemma deepest_target_tops_the_ranking_witness :
  exists pct,
    In (ReportPosition (100 - pct)%Q pct)
      (fst (report (lit "c") [0; 2; 4]
              [(lit "a", 0); (lit "b", 2); (lit "c", 4)])) /\
    (pct == 100)%Q.
Proof.
  destruct (deepest_target_tops_the_ranking (lit "c") [0; 2; 4]
              [(lit "a", 0); (lit "b", 2); (lit "c", 4)] 4)
    as (pct & q1 & q2 & q3 & n & Hr & Hfull & _);
    [discriminate | reflexivity |].
  exists pct. split.
  - rewrite Hr. cbn [fst]. simpl. tauto.
  - apply Hfull. intros d [<-|[<-|[<-|[]]]]; lia.
Defined.

(** X6: of two targets measured in the same run, the one that is at least
    as deep has at least the rank and the percentile of the other, and a
    strictly deeper one has a strictly higher rank and percentile. *)
Theorem deeper_target_higher_percentile :
  forall run src_root funcs t1 t2 td1 td2,
    let st := measure_all run src_root funcs in
    let s := sorted Z.ltb (fst st) in
    dict_get (snd st) t1 = Some td1 ->
    dict_get (snd st) t2 = Some td2 ->
    exists r1 r2 p1 p2,
      bisect_right s td1 = Some r1 /\ percentile r1 (len s) = Some p1 /\
      bisect_right s td2 = Some r2 /\ percentile r2 (len s) = Some p2 /\
      (td1 <= td2 -> r1 <= r2 /\ (p1 <= p2)%Q) /\
      (td1 < td2 -> r1 < r2 /\ (p1 < p2)%Q).
Proof.
  intros run src_root funcs t1 t2 td1 td2 st s Hg1 Hg2.
  assert (In td2 (fst st)) as Hin2
    by (eapply measure_all_value_in; exact Hg2).
  assert (fst st <> []) as Hne
    by (intros E; rewrite E in Hin2; contradiction).
  destruct (report_present t1 (fst st) (snd st) td1 Hne Hg1)
    as (Hb1 & Hp1 & _).
  destruct (report_present t2 (fst st) (snd st) td2 Hne Hg2)
    as (Hb2 & Hp2 & _).
  fold s in Hb1, Hp1, Hb2, Hp2.
  assert (s <> []) as Hs
    by (intros E; apply Hne; now apply (sorted_nil_inv Z.ltb)).
  pose proof (len_pos_nonempty s Hs) as Hn.
  destruct (percentile_le_iff _ _ _ _ _ Hn Hp1 Hp2) as [Hle Hlt].
  eexists _, _, _, _.
  split; [exact Hb1|]. split; [exact Hp1|].
  split; [exact Hb2|]. split; [exact Hp2|]. split.
  - intros H. pose proof (count_le_mono s td1 td2 H) as Hm.
    split; [exact Hm | now apply Hle].
  - intros H.
    assert (count_le td1 s < count_le td2 s) as Hm
      by (apply count_le_strict; [exact H | apply (sorted_in Z.ltb); exact Hin2]).
    split; [exact Hm | now apply Hlt].
Qed.

(** The functions [a] (depth 0) and [c] (depth 4) of [Recorded.abc]. *)
Lemma deeper_target_higher_percentile_witness :
  exists r1 r2 p1 p2,
    bisect_right [0; 2; 4] 0 = Some r1 /\ percentile r1 3 = Some p1 /\
    bisect_right [0; 2; 4] 4 = Some r2 /\ percentile r2 3 = Some p2 /\
    r1 < r2 /\ (p1 < p2)%Q.
Proof.
  destruct (deeper_target_higher_percentile Recorded.abc (lit ".")
              [lit "a"; lit "b"; lit "c"; lit "d"] (lit "a") (lit "c") 0 4
              eq_refl eq_refl)
    as (r1 & r2 & p1 & p2 & H1 & H2 & H3 & H4 & _ & Hlt).
  exists r1, r2, p1, p2.
  split; [exact H1|]. split; [exact H2|].
  split; [exact H3|]. split; [exact H4|].
  apply Hlt. lia.
Defined.

(* ------------------------------------------------------------------ *)
(** ** Further properties: the depth list and the depth map *)

(** The entries the measuring loop stores for [funcs], in order, when
    [measure] gives the depth of a function. *)
Definition measured_items (measure : str -> option Z) (funcs : list str)
  : list (str * Z) :=
  flat_map (fun f => match measure f with
                     | Some d => [(f, d)]
                     | None => []
                     end) funcs.

(** Whether [measure] gives a depth for [f]. *)
Definition measurable (measure : str -> option Z) (f : str) : bool :=
  match measure f with Some _ => true | None => false end.

Lemma dict_set_keys {V} (m : dict V) k v :
  (In k (keys m) -> keys (dict_set m k v) = keys m) /\
  (~ In k (keys m) -> keys (dict_set m k v) = keys m ++ [k]).
Proof.
  unfold keys. induction m as [|[k' v'] m [IH1 IH2]]; simpl.
  - split; [contradiction | reflexivity].
  - destruct (eqb k' k) eqn:E; simpl.
    + apply eqb_eq in E. split; [reflexivity|]. intros H. tauto.
    + assert (k' <> k) as Hne
          by (intros ->; rewrite eqb_refl in E; discriminate).
      split.
      * intros [H|H]; [contradiction|]. now rewrite IH1.
      * intros H. rewrite IH2 by tauto. reflexivity.
Qed.

Lemma dict_set_keys_NoDup {V} (m : dict V) k v :
  NoDup (keys m) -> NoDup (keys (dict_set m k v)).
Proof.
  intros H. destruct (dict_set_keys m k v) as [H1 H2].
  destruct (in_dec (list_eq_dec N.eq_dec) k (keys m)) as [Hin|Hn].
  - now rewrite H1.
  - rewrite H2 by exact Hn.
    apply NoDup_app; [exact H | repeat constructor; intros [] |].
    intros x Hx [<-|[]]. contradiction.
Qed.

Lemma dict_in_get {V} (m : dict V) k v :
  NoDup (keys m) -> In (k, v) (items m) -> dict_get m k = Some v.
Proof.
  unfold keys, items. induction m as [|[k' v'] m IH]; simpl;
    [contradiction|].
  intros Hnd [E|Hin].
  - injection E as E1 E2. subst k' v'. now rewrite eqb_refl.
  - inversion Hnd as [|? ? Hnot Hnd']; subst.
    destruct (eqb k' k) eqn:E; [|now apply IH].
    apply eqb_eq in E. subst k'. exfalso. apply Hnot.
    apply in_map_iff. exists (k, v). now split.
Qed.

Section LoopFacts.

Variable measure : str -> option Z.

Let loop (funcs : list str) (st : list Z * dict Z) :=
  fold_left (fun st f => measure_step (measure f) f st) funcs st.

Lemma loop_keys_NoDup funcs :
  forall st, NoDup (keys (snd st)) -> NoDup (keys (snd (loop funcs st))).
Proof.
  unfold loop. induction funcs as [|f funcs IH]; intros st H; simpl;
    [exact H|].
  apply IH. unfold measure_step. destruct (measure f); simpl; [|exact H].
  now apply dict_set_keys_NoDup.
Qed.

Lemma loop_items funcs :
  NoDup funcs ->
  forall st, (forall f, In f funcs -> dict_get (snd st) f = None) ->
    snd (loop funcs st) = snd st ++ measured_items measure funcs.
Proof.
  unfold loop, measured_items.
  induction 1 as [|g funcs Hg Hnd IH]; intros st Hfresh; simpl.
  - now rewrite app_nil_r.
  - rewrite IH.
    + unfold measure_step. destruct (measure g) as [d|]; simpl;
        [|reflexivity].
      rewrite dict_set_new by (apply Hfresh; now left).
      now rewrite <- app_assoc.
    + intros f Hf. unfold measure_step.
      destruct (measure g) as [d|]; simpl.
      * rewrite dict_get_set_other by (intros ->; contradiction).
        apply Hfresh. now right.
      * apply Hfresh. now right.
Qed.

Lemma measured_items_values funcs :
  map snd (measured_items measure funcs) = measured measure funcs.
Proof.
  unfold measured_items, measured.
  induction funcs as [|f funcs IH]; simpl; [reflexivity|].
  rewrite map_app, IH. now destruct (measure f).
Qed.

Lemma measured_items_keys funcs :
  map fst (measured_items measure funcs)
  = filter (measurable measure) funcs.
Proof.
  unfold measured_items, measurable.
  induction funcs as [|f funcs IH]; simpl; [reflexivity|].
  rewrite map_app, IH. now destruct (measure f).
Qed.

End LoopFacts.

Lemma list_functions_NoDup run src_root file_glob :
  NoDup (list_functions run src_root file_glob).
Proof.
  unfold list_functions.
  destruct (list_files run src_root file_glob); [constructor|].
  apply funcs_of_output_sorted.
Qed.

(** X7: over distinct functions, as the enumerator returns them, the
    measuring loop keeps the depth list and the depth map in step: the map
    holds, in the order of the functions, one entry for each function that
    could be measured, and the depth list is the list of the map's
    values. *)
Theorem depth_list_and_map_in_step :
  forall run src_root,
    let measure := fun f => max_call_depth_for run f src_root in
    (forall funcs,
        NoDup funcs ->
        let st := measure_all run src_root funcs in
        items (snd st) = measured_items measure funcs /\
        fst st = map snd (items (snd st)) /\
        keys (snd st) = filter (measurable measure) funcs) /\
    (forall file_glob,
        let st := measure_all run src_root
                    (list_functions run src_root file_glob) in
        fst st = map snd (items (snd st)) /\
        keys (snd st)
        = filter (measurable measure)
            (list_functions run src_root file_glob)).
Proof.
  intros run src_root measure.
  assert (forall funcs,
             NoDup funcs ->
             let st := measure_all run src_root funcs in
             items (snd st) = measured_items measure funcs /\
             fst st = map snd (items (snd st)) /\
             keys (snd st) = filter (measurable measure) funcs) as H.
  { intros funcs Hnd st.
    assert (items (snd st) = measured_items measure funcs) as E.
    { unfold st, measure_all, items.
      rewrite (loop_items measure funcs Hnd); reflexivity. }
    split; [exact E|]. split.
    - rewrite E, measured_items_values. apply measure_all_depths.
    - unfold keys. unfold items in E. rewrite E.
      apply measured_items_keys. }
  split; [exact H|].
  intros file_glob st.
  destruct (H _ (list_functions_NoDup run src_root file_glob))
    as (_ & H1 & H2).
  split; assumption.
Qed.

(** The four functions of [Recorded.abc], of which [d] cannot be
    measured. *)
Lemma depth_list_and_map_in_step_witness :
  let st := measure_all Recorded.abc (lit ".")
              [lit "a"; lit "b"; lit "c"; lit "d"] in
  fst st = [0; 2; 4] /\
  fst st = map snd (items (snd st)) /\
  keys (snd st) = [lit "a"; lit "b"; lit "c"].
Proof.
  intros st.
  destruct (proj1 (depth_list_and_map_in_step Recorded.abc (lit "."))
              [lit "a"; lit "b"; lit "c"; lit "d"]) as (_ & H1 & H2).
  - repeat constructor; simpl; intuition discriminate.
  - split; [reflexivity|]. split; [exact H1|].
    fold st in H2. rewrite H2. reflexivity.
Defined.

Lemma measure_all_keys_NoDup run src_root funcs :
  NoDup (keys (snd (measure_all run src_root funcs))).
Proof.
  unfold measure_all.
  apply (loop_keys_NoDup (fun f => max_call_depth_for run f src_root)).
  constructor.
Qed.

Lemma in_firstn {A} n (l : list A) x : In x (firstn n l) -> In x l.
Proof.
  intros H. rewrite <- (firstn_skipn n l). apply in_or_app. now left.
Qed.

Lemma top20_in (depth_map : dict Z) x :
  In x (top20 depth_map) -> In x (items depth_map).
Proof.
  unfold top20. intros H. apply in_firstn in H.
  now apply (proj1 (sorted_in top_ltb _ _)) in H.
Qed.

Lemma NoDup_firstn {A} n (l : list A) : NoDup l -> NoDup (firstn n l).
Proof.
  intros H. rewrite <- (firstn_skipn n l) in H.
  now apply NoDup_app_remove_r in H.
Qed.

(** X8: every entry of the top-20 list of a run is a function of the
    enumeration with the depth measured for it; no function is listed
    twice; when at most 20 functions were measured all of them are
    listed; and no measured function is deeper than the first entry. *)
Theorem top20_lists_measured_functions :
  forall run src_root funcs,
    let depth_map := snd (measure_all run src_root funcs) in
    let top := top20 depth_map in
    (forall name d,
        In (name, d) top ->
        In name funcs /\ max_call_depth_for run name src_root = Some d) /\
    NoDup (map fst top) /\
    ((length (items depth_map) <= 20)%nat ->
     forall name d,
       In name funcs -> max_call_depth_for run name src_root = Some d ->
       In (name, d) top) /\
    (forall first rest,
        top = first :: rest ->
        forall name d,
          In name funcs -> max_call_depth_for run name src_root = Some d ->
          d <= snd first).
Proof.
  intros run src_root funcs depth_map top.
  pose proof (measure_all_keys_NoDup run src_root funcs) as Hnd.
  fold depth_map in Hnd.
  assert (forall name d,
             In name funcs /\ max_call_depth_for run name src_root = Some d
             <-> In (name, d) (sorted top_ltb (items depth_map))) as Hsorted.
  { intros name d. rewrite sorted_in.
    unfold depth_map. rewrite <- measure_all_get. split.
    - apply dict_get_in.
    - apply dict_in_get. exact Hnd. }
  split; [|split; [|split]].
  - intros name d Hin. apply Hsorted.
    unfold top, top20 in Hin. now apply in_firstn in Hin.
  - unfold top, top20. rewrite <- firstn_map. apply NoDup_firstn.
    eapply Permutation_NoDup; [|exact Hnd].
    unfold keys, items. apply Permutation_map. symmetry. apply sorted_perm.
  - intros Hlen name d Hin Hm. unfold top, top20.
    rewrite firstn_all2 by (rewrite sorted_length; exact Hlen).
    apply Hsorted. now split.
  - intros first rest Htop name d Hin Hm.
    assert (In (name, d) (sorted top_ltb (items depth_map))) as Hx
      by (apply Hsorted; now split).
    pose proof (sorted_top_sorted (items depth_map)) as Hs.
    unfold top, top20 in Htop.
    destruct (sorted top_ltb (items depth_map)) as [|y l]; [contradiction|].
    simpl in Htop. injection Htop as -> _.
    inversion Hs as [|? ? _ Hall]; subst.
    destruct Hx as [E|Hx]; [subst first; simpl; lia|].
    rewrite Forall_forall in Hall. specialize (Hall _ Hx).
    unfold top_order in Hall. simpl in Hall. lia.
Qed.

(** The three measured functions of [Recorded.abc]. *)
Lemma top20_lists_measured_functions_witness :
  let top := top20 (snd (measure_all Recorded.abc (lit ".")
                           [lit "a"; lit "b"; lit "c"; lit "d"])) in
  top = [(lit "c", 4); (lit "b", 2); (lit "a", 0)] /\
  In (lit "b", 2) top /\
  max_call_depth_for Recorded.abc (lit "c") (lit ".") = Some 4.
Proof.
  intros top.
  destruct (top20_lists_measured_functions Recorded.abc (lit ".")
              [lit "a"; lit "b"; lit "c"; lit "d"])
    as (Hentry & _ & Hall & _).
  split; [reflexivity|]. split.
  - apply Hall; [simpl; lia | simpl; tauto | reflexivity].
  - apply (Hentry (lit "c") 4). now left.
Defined.

(* ------------------------------------------------------------------ *)
(** ** Further properties: how a run ends *)

Lemma max_call_depth_for_none run f src_root :
  max_call_depth_for run f src_root = None <->
  blank (run (cflow_cmd f src_root) (Some src_root)).
Proof. apply depth_of_output_blank. Qed.

Lemma max_call_depth_for_some run f src_root :
  (exists d, max_call_depth_for run f src_root = Some d) <->
  ~ blank (run (cflow_cmd f src_root) (Some src_root)).
Proof.
  rewrite <- max_call_depth_for_none.
  destruct (max_call_depth_for run f src_root) as [d|]; split.
  - discriminate.
  - eauto.
  - intros [d H]. discriminate.
  - congruence.
Qed.

(** Closes one direction of an equivalence between an outcome and a
    condition on the tool outputs, from the facts of the case at hand. *)
Ltac settle_outcome :=
  intros; try discriminate; try reflexivity; try tauto;
  repeat match goal with
         | H : _ /\ _ |- _ => destruct H
         | H : exists _, _ |- _ => destruct H
         | H : _ \/ _ |- _ => destruct H
         end;
  try tauto; try congruence;
  try (match goal with
       | Hf : ?l = [], Hin : In _ ?l |- _ =>
           rewrite Hf in Hin; contradiction
       end);
  try (exfalso; eauto; fail);
  eauto.

(** X9: with a target argument, what the tools print decides how the run
    ends: exit 2 exactly when no function is enumerated; exit 3 exactly
    when functions are enumerated and every call tree is empty or
    whitespace-only; exit 4 exactly when some call tree has a visible
    character while the target is not enumerated or has none; a normal
    return exactly when the target is enumerated and its call tree has a
    visible character. No run ends in an exception, and every run prints
    at least one line. *)
Theorem run_outcome_decided_by_tool_outputs :
  forall run,
    (forall prog target rest,
        let src_root := src_root_arg rest in
        let funcs := list_functions run src_root (file_glob_arg rest) in
        let tree := fun f => run (cflow_cmd f src_root) (Some src_root) in
        let outcome := snd (main run (prog :: target :: rest)) in
        (outcome = SysExit 2 <-> funcs = []) /\
        (outcome = SysExit 3 <->
         funcs <> [] /\ forall f, In f funcs -> blank (tree f)) /\
        (outcome = SysExit 4 <->
         (exists f, In f funcs /\ ~ blank (tree f)) /\
         (~ In target funcs \/ blank (tree target))) /\
        (outcome = Returned <-> In target funcs /\ ~ blank (tree target))) /\
    (forall argv e, snd (main run argv) <> Raised e) /\
    (forall argv, fst (main run argv) <> []).
Proof.
  intros run.
  assert (forall prog target rest,
             let src_root := src_root_arg rest in
             let funcs := list_functions run src_root (file_glob_arg rest) in
             let tree := fun f => run (cflow_cmd f src_root) (Some src_root) in
             let result := main run (prog :: target :: rest) in
             (funcs = [] /\ snd result = SysExit 2 /\ fst result <> []) \/
             (funcs <> [] /\ (forall f, In f funcs -> blank (tree f)) /\
              snd result = SysExit 3 /\ fst result <> []) \/
             ((exists f, In f funcs /\ ~ blank (tree f)) /\
              (~ In target funcs \/ blank (tree target)) /\
              snd result = SysExit 4 /\ fst result <> []) \/
             (In target funcs /\ ~ blank (tree target) /\
              snd result = Returned /\ fst result <> [])) as Hcases.
  { intros prog target rest src_root funcs tree result.
    unfold result, main. fold src_root funcs.
    destruct funcs as [|f0 fs] eqn:Ef;
      [left; repeat split; discriminate|].
    right. rewrite <- Ef. assert (funcs <> []) as Hne by congruence.
    clear Ef f0 fs.
    set (st := measure_all run src_root funcs).
    destruct (fst st) as [|d ds] eqn:Ed.
    - left. split; [exact Hne|]. split; [|split; [reflexivity|discriminate]].
      intros f Hf. apply max_call_depth_for_none.
      unfold st in Ed. rewrite measure_all_depths in Ed.
      now apply (proj1 (measured_nil _ funcs) Ed).
    - right.
      assert (exists f, In f funcs /\ ~ blank (tree f)) as Hsome.
      { assert (In d (fst st)) as Hd by (rewrite Ed; now left).
        unfold st in Hd. rewrite measure_all_depths in Hd.
        unfold measured in Hd. apply in_flat_map in Hd.
        destruct Hd as (f & Hf & Hm). exists f. split; [exact Hf|].
        apply max_call_depth_for_some.
        destruct (max_call_depth_for run f src_root); [eauto | contradiction]. }
      destruct (dict_get (snd st) target) as [td|] eqn:Eg.
      + right.
        destruct (report_present target (d :: ds) (snd st) td)
          as (_ & _ & q1 & q2 & q3 & _ & ->); [discriminate | exact Eg |].
        apply measure_all_get in Eg. destruct Eg as [Hin Hm].
        split; [exact Hin|]. split; [|split; [reflexivity | discriminate]].
        apply max_call_depth_for_some. eauto.
      + left. rewrite report_absent; [| discriminate | exact Eg].
        split; [exact Hsome|]. split; [|split; [reflexivity | discriminate]].
        destruct (in_dec (list_eq_dec N.eq_dec) target funcs) as [Hin|Hout];
          [right | now left].
        apply max_call_depth_for_none.
        now apply (proj1 (measure_all_get_none run src_root funcs target) Eg). }
  split; [|split].
  - intros prog target rest src_root funcs tree outcome.
    subst outcome tree funcs src_root.
    destruct (Hcases prog target rest)
      as [(Hf & Ho & _)|[(Hf & Hb & Ho & _)|
          [((f & Hin & Hv) & Ht & Ho & _)|(Hin & Hv & Ho & _)]]];
      cbv beta in *; rewrite Ho.
    + repeat split; settle_outcome.
    + repeat split; settle_outcome.
    + assert (list_functions run (src_root_arg rest) (file_glob_arg rest)
              <> []) as Hne
          by (intros E; rewrite E in Hin; contradiction).
      repeat split; settle_outcome.
    + assert (list_functions run (src_root_arg rest) (file_glob_arg rest)
              <> []) as Hne
          by (intros E; rewrite E in Hin; contradiction).
      repeat split; settle_outcome.
  - intros argv e. destruct argv as [|prog [|target rest]]; try discriminate.
    destruct (Hcases prog target rest)
      as [(_ & Ho & _)|[(_ & _ & Ho & _)|[(_ & _ & Ho & _)|(_ & _ & Ho & _)]]];
      rewrite Ho; discriminate.
  - intros argv. destruct argv as [|prog [|target rest]]; try discriminate.
    destruct (Hcases prog target rest)
      as [(_ & _ & Hp)|[(_ & _ & _ & Hp)|[(_ & _ & _ & Hp)|(_ & _ & _ & Hp)]]];
      exact Hp.
Qed.

(** In [Recorded.abc] the function [d] is enumerated and its call tree is
    empty, while [a] has one: a run for [d] exits with 4, a run for [a]
    returns. *)
Lemma run_outcome_decided_by_tool_outputs_witness :
  snd (main Recorded.abc [lit "prog"; lit "d"]) = SysExit 4 /\
  snd (main Recorded.abc [lit "prog"; lit "a"]) = Returned.
Proof.
  destruct (run_outcome_decided_by_tool_outputs Recorded.abc) as [H _].
  split.
  - destruct (H (lit "prog") (lit "d") []) as (_ & _ & [_ Hfour] & _).
    apply Hfour. split.
    + exists (lit "a"). split; [vm_compute; tauto|].
      intros Hb. apply strip_nil_iff in Hb. vm_compute in Hb. discriminate.
    + right. apply strip_nil_iff. reflexivity.
  - destruct (H (lit "prog") (lit "a") []) as (_ & _ & _ & [_ Hzero]).
    apply Hzero. split; [vm_compute; tauto|].
    intros Hb. apply strip_nil_iff in Hb. vm_compute in Hb. discriminate.
Defined.

(* ------------------------------------------------------------------ *)
(** ** Further properties: the values that are reported *)

Lemma max_depth_nonneg ds : 0 <= max_depth ds.
Proof.
  unfold max_depth. induction ds as [|d ds IH]; simpl; lia.
Qed.

Lemma depth_of_output_nonneg text d :
  depth_of_output text = Some d -> 0 <= d.
Proof.
  intros H.
  assert (~ blank text) as Hb
    by (intros Hb; apply depth_of_output_blank in Hb; congruence).
  destruct (splitlines_nonempty text (not_blank_nonempty _ Hb))
    as (root & rest & Hl).
  rewrite (depth_of_output_lines text root rest Hb Hl) in H.
  injection H as <-. apply max_depth_nonneg.
Qed.

(** X10: the depths a run records are never negative, and each of the
    three quartiles is the depth measured for one of the enumerated
    functions (no value is interpolated). *)
Theorem quartiles_are_measured_depths :
  forall run src_root funcs,
    let st := measure_all run src_root funcs in
    (forall d, In d (fst st) -> 0 <= d) /\
    (forall f d, dict_get (snd st) f = Some d -> 0 <= d) /\
    (fst st <> [] ->
     exists q1 q2 q3,
       quartiles (sorted Z.ltb (fst st)) = Some (q1, q2, q3) /\
       forall q, In q [q1; q2; q3] ->
                 0 <= q /\
                 exists f, In f funcs /\
                           max_call_depth_for run f src_root = Some q).
Proof.
  intros run src_root funcs st.
  assert (forall d, In d (fst st) ->
                    exists f, In f funcs /\
                              max_call_depth_for run f src_root = Some d)
    as Hfrom.
  { intros d Hd. unfold st in Hd. rewrite measure_all_depths in Hd.
    unfold measured in Hd. apply in_flat_map in Hd.
    destruct Hd as (f & Hf & Hm). exists f. split; [exact Hf|].
    destruct (max_call_depth_for run f src_root) as [d'|];
      [|contradiction].
    destruct Hm as [->|[]]. reflexivity. }
  assert (forall d, In d (fst st) -> 0 <= d) as Hpos.
  { intros d Hd. destruct (Hfrom d Hd) as (f & _ & Hm).
    eapply depth_of_output_nonneg. exact Hm. }
  split; [exact Hpos|]. split.
  - intros f d Hg. apply Hpos. eapply measure_all_value_in. exact Hg.
  - intros Hne.
    assert (sorted Z.ltb (fst st) <> []) as Hs
      by (intros E; apply Hne; now apply (sorted_nil_inv Z.ltb)).
    destruct (quartiles_some _ Hs) as (q1 & q2 & q3 & Hq & H1 & H2 & H3).
    exists q1, q2, q3. split; [exact Hq|].
    apply nth_error_In in H1, H2, H3.
    apply (proj1 (sorted_in Z.ltb _ _)) in H1, H2, H3.
    intros q [<-|[<-|[<-|[]]]]; split; auto.
Qed.

(** The depths 0, 2 and 4 of [Recorded.abc]: each quartile is the depth
    of one of [a], [b], [c]. *)
Lemma quartiles_are_measured_depths_witness :
  exists q1 q2 q3,
    quartiles [0; 2; 4] = Some (q1, q2, q3) /\
    exists f, In f [lit "a"; lit "b"; lit "c"; lit "d"] /\
              max_call_depth_for Recorded.abc f (lit ".") = Some q3.
Proof.
  destruct (quartiles_are_measured_depths Recorded.abc (lit ".")
              [lit "a"; lit "b"; lit "c"; lit "d"]) as (_ & _ & H).
  destruct H as (q1 & q2 & q3 & Hq & Hin); [discriminate|].
  exists q1, q2, q3. split; [exact Hq|].
  apply (Hin q3). simpl. tauto.
Defined.

(* ------------------------------------------------------------------ *)
(** ** Further properties: a final newline *)

Lemma splitlines_from_linebreak c rest cur :
  islinebreak c = true ->
  splitlines_from cur (c :: rest)
  = rev cur ::
      match rest with
      | c2 :: rest' =>
          if ((c =? CR) && (c2 =? LF))%N
          then splitlines_from [] rest'
          else splitlines_from [] rest
      | [] => []
      end.
Proof. intros H. simpl. rewrite H. destruct rest; reflexivity. Qed.

(** A newline added at the end closes the last line, or adds one empty
    line when the text ends in a line boundary that is not a carriage
    return. *)
Lemma splitlines_from_newline n :
  forall s, (length s <= n)%nat ->
    forall cur,
      splitlines_from cur (s ++ [LF]) = splitlines_from cur s \/
      splitlines_from cur (s ++ [LF]) = splitlines_from cur s ++ [[]].
Proof.
  induction n as [|n IH]; intros s Hlen cur.
  - destruct s; [|simpl in Hlen; lia].
    simpl. destruct cur; [now right | now left].
  - destruct s as [|c rest].
    + simpl. destruct cur; [now right | now left].
    + simpl in Hlen. cbn [app].
      destruct (islinebreak c) eqn:Ec.
      * rewrite !splitlines_from_linebreak by exact Ec.
        destruct rest as [|c2 rest0].
        -- cbn [app]. destruct ((c =? CR) && (LF =? LF))%N.
           ++ left. reflexivity.
           ++ right. reflexivity.
        -- cbn [app]. simpl in Hlen.
           destruct ((c =? CR) && (c2 =? LF))%N.
           ++ destruct (IH rest0 ltac:(lia) []) as [E|E]; rewrite E.
              ** now left.
              ** now right.
           ++ change (c2 :: rest0 ++ [LF]) with ((c2 :: rest0) ++ [LF]).
              destruct (IH (c2 :: rest0) ltac:(simpl; lia) []) as [E|E];
                rewrite E.
              ** now left.
              ** now right.
      * simpl. rewrite Ec.
        destruct (IH rest ltac:(lia) (c :: cur)) as [E|E]; rewrite E.
        -- now left.
        -- now right.
Qed.

Lemma blank_app s t : blank (s ++ t) <-> blank s /\ blank t.
Proof. unfold blank. apply Forall_app. Qed.

Lemma max_depth_app_zero ds : max_depth (ds ++ [0]) = max_depth ds.
Proof.
  unfold max_depth. induction ds as [|d ds IH]; simpl; [reflexivity|].
  now rewrite IH.
Qed.

(** X11: a newline added at the end of the call-graph tool's output never
    changes what the depth measurer returns. *)
Theorem final_newline_is_immaterial :
  forall run run' func src_root,
    run' (cflow_cmd func src_root) (Some src_root)
    = run (cflow_cmd func src_root) (Some src_root) ++ [LF] ->
    max_call_depth_for run' func src_root
    = max_call_depth_for run func src_root.
Proof.
  intros run run' func src_root Hout.
  unfold max_call_depth_for. rewrite Hout.
  set (text := run (cflow_cmd func src_root) (Some src_root)).
  destruct (blank_dec text) as [Hb|Hb].
  - rewrite (proj2 (depth_of_output_blank text) Hb).
    apply depth_of_output_blank. apply blank_app. split; [exact Hb|].
    repeat constructor.
  - destruct (splitlines_nonempty text (not_blank_nonempty _ Hb))
      as (root & rest & Hl).
    rewrite (depth_of_output_lines text root rest Hb Hl).
    assert (~ blank (text ++ [LF])) as Hb'
      by (intros H; apply blank_app in H; tauto).
    destruct (splitlines_from_newline (length text) text (le_n _) [])
      as [E|E]; fold (splitlines (text ++ [LF])) in E;
      fold (splitlines text) in E; rewrite Hl in E.
    + now rewrite (depth_of_output_lines _ root rest Hb' E).
    + rewrite (depth_of_output_lines _ root (rest ++ [[]]) Hb' E).
      rewrite map_app. simpl map.
      change (depth_of_line []) with 0.
      now rewrite max_depth_app_zero.
Qed.

(** The tree of [c] in [Recorded.abc] with one more newline. *)
Lemma final_newline_is_immaterial_witness :
  max_call_depth_for
    (fun cmd cwd => Recorded.abc cmd cwd ++ [LF]) (lit "c") (lit ".")
  = Some 4.
Proof.
  rewrite (final_newline_is_immaterial Recorded.abc
             (fun cmd cwd => Recorded.abc cmd cwd ++ [LF])
             (lit "c") (lit ".") eq_refl).
  reflexivity.
Defined.

(* ------------------------------------------------------------------ *)
(** ** Further properties: what the results depend on *)

Lemma funcs_of_output_lex_le out :
  StronglySorted lex_le (funcs_of_output out).
Proof.
  apply (StronglySorted_impl lex_lt).
  - intros a b H. now right.
  - apply funcs_of_output_sorted.
Qed.

(** X12: the enumerator's result depends only on the set of names the
    symbol extractor prints as first tokens: two runs in which files are
    found and the same names occur, in whatever order and however often,
    enumerate the same list of functions. *)
Theorem enumeration_depends_on_names_only :
  forall run1 run2 root1 root2 glob1 glob2,
    let out1 := run1 (ctags_cmd (list_files run1 root1 glob1)) None in
    let out2 := run2 (ctags_cmd (list_files run2 root2 glob2)) None in
    list_files run1 root1 glob1 <> [] ->
    list_files run2 root2 glob2 <> [] ->
    (forall name,
        (exists l, In l (splitlines out1) /\ first_token l name) <->
        (exists l, In l (splitlines out2) /\ first_token l name)) ->
    list_functions run1 root1 glob1 = list_functions run2 root2 glob2.
Proof.
  intros run1 run2 root1 root2 glob1 glob2 out1 out2 Hf1 Hf2 Hsame.
  assert (list_functions run1 root1 glob1 = funcs_of_output out1) as ->
    by (unfold list_functions;
        destruct (list_files run1 root1 glob1); [congruence | reflexivity]).
  assert (list_functions run2 root2 glob2 = funcs_of_output out2) as ->
    by (unfold list_functions;
        destruct (list_files run2 root2 glob2); [congruence | reflexivity]).
  apply (sorted_unique lex_le lex_le_antisym).
  - apply NoDup_Permutation; try apply funcs_of_output_sorted.
    intros name. rewrite !funcs_of_output_in. apply Hsame.
  - apply funcs_of_output_lex_le.
  - apply funcs_of_output_lex_le.
Qed.

(** [Recorded.abc] and a shell that prints each symbol once, in another
    order. *)
Lemma enumeration_depends_on_names_only_witness :
  list_functions Recorded.abc (lit ".") (lit "\.c$")
  = list_functions
      (Recorded.shell (Recorded.unlines [lit "x.c"]) []
         (Recorded.unlines [lit "d f"; lit "c f"; lit "b f"; lit "a f"]) [])
      (lit "src") (lit "\.c$").
Proof.
  apply enumeration_depends_on_names_only.
  - vm_compute. discriminate.
  - vm_compute. discriminate.
  - intros name. rewrite <- !funcs_of_output_in.
    vm_compute. tauto.
Defined.

Lemma max_depth_reaches ds k :
  0 < k -> (k <= max_depth ds <-> exists d, In d ds /\ k <= d).
Proof.
  intros Hk. split.
  - intros H. destruct (max_depth_attained ds) as [E|Hin]; [lia|].
    exists (max_depth ds). now split.
  - intros (d & Hin & Hd). pose proof (max_depth_upper ds d Hin). lia.
Qed.

(** X13: for an output that is not empty or whitespace-only and a level
    k > 0, the measured depth is at least k exactly when some line after
    the first begins with at least 2k spaces; so it is 0 exactly when no
    such line begins with two spaces. *)
Theorem depth_reached_by_indentation :
  forall run func src_root root rest d,
    splitlines (run (cflow_cmd func src_root) (Some src_root))
    = root :: rest ->
    max_call_depth_for run func src_root = Some d ->
    (forall k, 0 < k ->
               (k <= d <->
                exists l, In l rest /\ 2 * k <= Z.of_nat (leading_spaces l))) /\
    (d = 0 <-> forall l, In l rest -> (leading_spaces l < 2)%nat).
Proof.
  intros run func src_root root rest d Hl Hm.
  assert (d = max_depth (map depth_of_line rest)) as ->.
  { unfold max_call_depth_for in Hm.
    assert (~ blank (run (cflow_cmd func src_root) (Some src_root))) as Hb
      by (intros Hb; apply depth_of_output_blank in Hb; congruence).
    rewrite (depth_of_output_lines _ root rest Hb Hl) in Hm. congruence. }
  assert (forall k, 0 < k ->
                    (k <= max_depth (map depth_of_line rest) <->
                     exists l, In l rest /\
                               2 * k <= Z.of_nat (leading_spaces l))) as Hk.
  { intros k Hk. rewrite (max_depth_reaches _ k Hk). split.
    - intros (x & Hin & Hx). apply in_map_iff in Hin.
      destruct Hin as (l & <- & Hin). exists l. split; [exact Hin|].
      unfold depth_of_line in Hx. rewrite leading_count in Hx.
      pose proof (Z.mul_div_le (Z.of_nat (leading_spaces l)) 2). lia.
    - intros (l & Hin & Hx). exists (depth_of_line l).
      split; [now apply in_map|].
      unfold depth_of_line. rewrite leading_count.
      apply Z.div_le_lower_bound; lia. }
  split; [exact Hk|].
  pose proof (max_depth_nonneg (map depth_of_line rest)) as Hpos.
  specialize (Hk 1 ltac:(lia)). split.
  - intros E l Hin.
    destruct (Nat.lt_ge_cases (leading_spaces l) 2) as [H|H]; [exact H|].
    assert (1 <= max_depth (map depth_of_line rest)); [|lia].
    apply Hk. exists l. split; [exact Hin | lia].
  - intros Hall.
    destruct (Z.eq_dec (max_depth (map depth_of_line rest)) 0) as [E|E];
      [exact E|].
    assert (1 <= max_depth (map depth_of_line rest)) as H by lia.
    apply Hk in H. destruct H as (l & Hin & Hx).
    specialize (Hall l Hin). lia.
Qed.

(** The tree of [b] in [Recorded.abc] has a line with four leading
    spaces and none with six: depth 2. *)
Lemma depth_reached_by_indentation_witness :
  (2 <= 2 <->
   exists l, In l [lit "  x()"; lit "    y()"; lit "  z()"] /\
             2 * 2 <= Z.of_nat (leading_spaces l)) /\
  max_call_depth_for Recorded.abc (lit "b") (lit ".") = Some 2.
Proof.
  destruct (depth_reached_by_indentation Recorded.abc (lit "b") (lit ".")
              (lit "b()") [lit "  x()"; lit "    y()"; lit "  z()"] 2
              eq_refl eq_refl) as [Hk _].
  split; [apply Hk; lia | reflexivity].
Defined.
